(** * BrowserFileSystem: the browser-side file system adapter of Brackets

    A shallow embedding of [src/filesystem/impls/browser/BrowserFileSystem.js].

    The adapter is written in continuation-passing style over the IDBFS
    driver [_fs].  Every anonymous callback of the source becomes a
    constructor of a defunctionalised continuation type that records the
    variables the callback captures; the mutable variables two callbacks
    share ([done], [data], [stat], [err] of [readFile]; [count], [stats] of
    [readdir]) live in a heap of closure environments.  The event loop is a
    table of outstanding driver calls, any of which may complete next. *)

From Stdlib Require Import ZArith Ascii Lia.
From Stdlib Require String.
From stdpp Require Import base tactics option list strings gmap.

Local Open Scope Z_scope.

(** ** JavaScript strings *)

Module JsString.

(** [s.lastIndexOf(c, start)] for a one-character search string [c]: the
    scan of [s] whose first character has index [i], keeping the largest
    index that holds [c] and does not exceed [start]; [-1] when there is
    none. *)
Fixpoint lastIndexOf_aux (c : ascii) (s : string) (i start : Z) : Z :=
  match s with
  | EmptyString => -1
  | String a s' =>
      let r := lastIndexOf_aux c s' (i + 1) start in
      if 0 <=? r then r
      else if Ascii.eqb a c && (i <=? start) then i else -1
  end.

(** [s.lastIndexOf(c)] ([fromIndex = None], the position defaults to
    +Infinity) and [s.lastIndexOf(c, fromIndex)]: a negative position
    behaves as 0, one beyond the end as the end. *)
Definition lastIndexOf (s : string) (c : ascii) (fromIndex : option Z) : Z :=
  match fromIndex with
  | None => lastIndexOf_aux c s 0 (Z.of_nat (String.length s))
  | Some pos => lastIndexOf_aux c s 0 (Z.max pos 0)
  end.

(** [s.substr(start, length)]: a negative [start] counts from the end, a
    [length] that is not positive gives the empty string, and the result
    is cut at the end of [s]. *)
Definition substr (s : string) (start length : Z) : string :=
  let len := Z.of_nat (String.length s) in
  let st := if start <? 0 then Z.max (len + start) 0 else Z.min start len in
  let n := Z.min (Z.max length 0) (len - st) in
  String.substring (Z.to_nat st) (Z.to_nat n) s.

End JsString.

Import JsString.

(** Returns the path of the item's containing directory (item may be a file
    or a directory). *)
Definition _parentPath (path : string) : string :=
  let lastSlash := lastIndexOf path "/"%char None in
  let lastSlash :=
    if lastSlash =? Z.of_nat (String.length path) - 1
    then lastIndexOf path "/"%char (Some (lastSlash - 1))
    else lastSlash in
  substr path 0 (lastSlash + 1).

(** *** The parent path in the words of the specification

    The parent ignores a single trailing slash and is the prefix up to and
    including the last remaining slash. *)

Fixpoint ends_with_slash (s : string) : bool :=
  match s with
  | EmptyString => false
  | String a EmptyString => Ascii.eqb a "/"
  | String _ s' => ends_with_slash s'
  end.

Fixpoint drop_last (s : string) : string :=
  match s with
  | EmptyString => EmptyString
  | String _ EmptyString => EmptyString
  | String a s' => String a (drop_last s')
  end.

Definition strip_trailing_slash (s : string) : string :=
  if ends_with_slash s then drop_last s else s.

Fixpoint has_slash (s : string) : bool :=
  match s with
  | EmptyString => false
  | String a s' => Ascii.eqb a "/" || has_slash s'
  end.

Fixpoint through_last_slash (s : string) : string :=
  match s with
  | EmptyString => EmptyString
  | String a s' =>
      if has_slash s' then String a (through_last_slash s')
      else if Ascii.eqb a "/" then String a EmptyString else EmptyString
  end.

Definition parent_spec (path : string) : string :=
  through_last_slash (strip_trailing_slash path).

(** A slash that is not the last character of the path. *)
Definition has_inner_slash (path : string) : bool := has_slash (drop_last path).

(** ** Values

    [FileSystemError] and [FileSystemStats] are required from modules that
    are not part of this file; the adapter only uses three error constants
    and builds a stats object from three fields. *)

(** Modelled from the spec: the module [filesystem/FileSystemError] is
    missing; the canonical errors are NotFound, AlreadyExists and Unknown,
    three distinct constants that are truthy in JavaScript. *)
Inductive FileSystemError := NOT_FOUND | ALREADY_EXISTS | UNKNOWN.

(** Modelled from the spec: the module [filesystem/FileSystemStats] is
    missing; a stats object is an immutable snapshot of the three options
    the adapter passes to its constructor. *)
Record FileSystemStats := mkStats { isFile : bool; mtime : Z; size : Z }.

(** The JavaScript values the adapter hands to callbacks.  A hole of a
    sparse array reads as [VUndefined]. *)
#[warnings="-register-all"] Inductive value :=
| VUndefined
| VNull
| VBool (b : bool)
| VString (s : string)
| VError (e : FileSystemError)
| VStats (s : FileSystemStats)
| VArray (a : list value).

Definition truthy (v : value) : bool :=
  match v with
  | VUndefined | VNull => false
  | VBool b => b
  | VString s => negb (String.eqb s "")
  | VError _ | VStats _ | VArray _ => true
  end.

(** [a || b] *)
Definition js_or (a b : value) : value := if truthy a then a else b.

(** The [i]-th actual argument of a call; a missing one is [undefined]. *)
Definition arg (i : nat) (args : list value) : value := nth i args VUndefined.

(** [a[idx] = v] on a JavaScript array: in range the slot is overwritten,
    out of range the array grows and the slots in between are holes. *)
Definition array_set (a : list value) (idx : nat) (v : value) : list value :=
  if decide (idx < length a)%nat then <[idx := v]> a
  else a ++ replicate (idx - length a) VUndefined ++ [v].

(** ** The driver

    The IDBFS object [_fs] is an external collaborator: each primitive call
    completes later, once, with an error or a result. *)

Record native_error := mkNativeError { name : string }.

(** What [_fs.stat] passes on success; [isFile] is a method there. *)
Record native_stats :=
  mkNativeStats { n_isFile : bool; n_mtime : Z; n_size : Z }.

Inductive request :=
| ReqStat (path : string)
| ReqReaddir (path : string)
| ReqMkdir (path : string) (mode : Z)
| ReqReadFile (path encoding : string)
| ReqWriteFile (path data encoding : string)
| ReqUnlink (path : string).

Inductive response :=
| RStat (r : native_error + native_stats)
| RReaddir (r : native_error + list string)
| RMkdir (r : option native_error)
| RReadFile (r : native_error + string)
| RWriteFile (r : option native_error)
| RUnlink (r : option native_error).

Definition answers (q : request) (r : response) : bool :=
  match q, r with
  | ReqStat _, RStat _ | ReqReaddir _, RReaddir _ | ReqMkdir _ _, RMkdir _
  | ReqReadFile _ _, RReadFile _ | ReqWriteFile _ _ _, RWriteFile _
  | ReqUnlink _, RUnlink _ => true
  | _, _ => false
  end.

Definition _mapError (err : option native_error) : value :=
  match err with
  | None => VNull
  | Some e =>
      if String.eqb (name e) "ENoEntry" then VError NOT_FOUND
      else if String.eqb (name e) "EExists" then VError ALREADY_EXISTS
      else VError UNKNOWN
  end.

(** ** Callbacks

    [cont] are the callbacks that receive JavaScript arguments: the
    caller's own callback ([KUser], identified by a number, with the
    argument lists on which it throws) and the anonymous functions the
    adapter passes to its own [stat] and [exists].  [dcont] are the
    anonymous functions passed to the driver. *)

Inductive cont :=
| KUser (id : nat) (throws : list value -> bool)
| K_exists (callback : cont)
| K_readdir_entry (env : nat) (contents : list string) (idx : nat)
    (callback : cont)
| K_mkdir_stat (path : string) (callback : cont)
| K_readFile_stat (env : nat) (callback : cont)
| K_writeFile_exists (path data encoding : string) (callback : cont)
| K_writeFile_stat (path : string) (alreadyExists : value) (callback : cont).

Inductive dcont :=
| D_stat (callback : cont)
| D_readdir (path : string) (callback : cont)
| D_mkdir (path : string) (callback : cont)
| D_readFile (env : nat) (callback : cont)
| D_writeFile (path : string) (alreadyExists : value) (callback : cont)
| D_unlink (path : string) (callback : cont).

(** The variables shared by the two callbacks of one [readFile] call;
    [stat_var] is the variable [stat], which hides the function there. *)
Record readFile_env :=
  mkRF { done : bool; data : value; stat_var : value; err : value }.

(** The variables shared by the per-entry callbacks of one [readdir]. *)
Record readdir_env := mkRD { count : Z; stats : list value }.

(** What can be thrown: a TypeError of the engine, or whatever the caller's
    callback [id] throws. *)
Inductive exn := TypeError | UserError (id : nat).

(** What a run leaves behind: the calls made to the driver, the
    invocations of the caller's callbacks and of the change listener, and
    the exceptions that nobody caught. *)
Inductive event :=
| EDriver (call : nat) (q : request)
| ECallback (id : nat) (args : list value)
| EChange (listener : nat) (args : list value)
| EUncaught (e : exn).

(** ** The state of the module and of the event loop *)

Record State := mkState {
  _changeCallback : option nat;
  _changeTimeout : value;
  _pendingChanges : gmap string value;
  focus_handlers : list nat;
  readFile_envs : gmap nat readFile_env;
  readdir_envs : gmap nat readdir_env;
  next_env : nat;
  pending : gmap nat (request * dcont);
  next_call : nat;
  trace : list event
}.

Definition set_changeCallback (f : option nat) (s : State) : State :=
  mkState f (_changeTimeout s) (_pendingChanges s) (focus_handlers s)
    (readFile_envs s) (readdir_envs s) (next_env s) (pending s)
    (next_call s) (trace s).

Definition set_focus_handlers (h : list nat) (s : State) : State :=
  mkState (_changeCallback s) (_changeTimeout s) (_pendingChanges s) h
    (readFile_envs s) (readdir_envs s) (next_env s) (pending s)
    (next_call s) (trace s).

Definition set_readFile_envs (h : gmap nat readFile_env) (s : State) : State :=
  mkState (_changeCallback s) (_changeTimeout s) (_pendingChanges s)
    (focus_handlers s) h (readdir_envs s) (next_env s) (pending s)
    (next_call s) (trace s).

Definition set_readdir_envs (h : gmap nat readdir_env) (s : State) : State :=
  mkState (_changeCallback s) (_changeTimeout s) (_pendingChanges s)
    (focus_handlers s) (readFile_envs s) h (next_env s) (pending s)
    (next_call s) (trace s).

Definition set_next_env (n : nat) (s : State) : State :=
  mkState (_changeCallback s) (_changeTimeout s) (_pendingChanges s)
    (focus_handlers s) (readFile_envs s) (readdir_envs s) n (pending s)
    (next_call s) (trace s).

Definition set_pending (p : gmap nat (request * dcont)) (s : State) : State :=
  mkState (_changeCallback s) (_changeTimeout s) (_pendingChanges s)
    (focus_handlers s) (readFile_envs s) (readdir_envs s) (next_env s) p
    (next_call s) (trace s).

Definition set_next_call (n : nat) (s : State) : State :=
  mkState (_changeCallback s) (_changeTimeout s) (_pendingChanges s)
    (focus_handlers s) (readFile_envs s) (readdir_envs s) (next_env s)
    (pending s) n (trace s).

Definition set_trace (t : list event) (s : State) : State :=
  mkState (_changeCallback s) (_changeTimeout s) (_pendingChanges s)
    (focus_handlers s) (readFile_envs s) (readdir_envs s) (next_env s)
    (pending s) (next_call s) t.

(** The module as loaded: no listener, no timeout, [_pendingChanges = {}]. *)
Definition initial : State :=
  mkState None VUndefined ∅ [] ∅ ∅ 0%nat ∅ 0%nat [].

(** ** Effects: state and exceptions *)

Inductive result (A : Type) :=
| Ret (a : A)
| Throw (e : exn).
Arguments Ret {A} a.
Arguments Throw {A} e.

Definition M (A : Type) : Type := State -> result A * State.

Definition ret {A} (a : A) : M A := fun s => (Ret a, s).
Definition throw {A} (e : exn) : M A := fun s => (Throw e, s).
Definition bind {A B} (m : M A) (f : A -> M B) : M B :=
  fun s => match m s with
           | (Ret a, s') => f a s'
           | (Throw e, s') => (Throw e, s')
           end.

Notation "x <- m ;; k" := (bind m (fun x => k))
  (at level 100, m at next level, right associativity).
Notation "m ;; k" := (bind m (fun _ => k))
  (at level 100, right associativity).

(** [try { body } finally { cleanup }]: the cleanup runs on both exits; an
    exception of the body is thrown again after it unless the cleanup
    throws itself. *)
Definition try_finally (body cleanup : M unit) : M unit :=
  fun s => match body s with
           | (Ret _, s') => cleanup s'
           | (Throw e, s') =>
               match cleanup s' with
               | (Ret _, s'') => (Throw e, s'')
               | (Throw e', s'') => (Throw e', s'')
               end
           end.

Definition emit (e : event) : M unit :=
  fun s => (Ret tt, set_trace (trace s ++ [e]) s).

(** A call of a driver primitive: it is recorded and stays outstanding
    until the event loop delivers its completion to [k]. *)
Definition fs_call (q : request) (k : dcont) : M unit :=
  fun s =>
    let c := next_call s in
    (Ret tt,
     set_trace (trace s ++ [EDriver c q])
       (set_next_call (S c) (set_pending (<[c := (q, k)]> (pending s)) s))).

(** [_changeCallback(args)]: the listener registered by [initWatchers];
    calling the variable while it is still undefined is a TypeError. *)
Definition change (args : list value) : M unit :=
  fun s => match _changeCallback s with
           | Some l => emit (EChange l args) s
           | None => throw TypeError s
           end.

Definition get_readFile_env (env : nat) : M readFile_env :=
  fun s => match readFile_envs s !! env with
           | Some e => (Ret e, s)
           | None => (Throw TypeError, s)
           end.

Definition put_readFile_env (env : nat) (e : readFile_env) : M unit :=
  fun s => (Ret tt, set_readFile_envs (<[env := e]> (readFile_envs s)) s).

Definition get_readdir_env (env : nat) : M readdir_env :=
  fun s => match readdir_envs s !! env with
           | Some e => (Ret e, s)
           | None => (Throw TypeError, s)
           end.

Definition put_readdir_env (env : nat) (e : readdir_env) : M unit :=
  fun s => (Ret tt, set_readdir_envs (<[env := e]> (readdir_envs s)) s).

(** A fresh closure environment for the local variables of one call. *)
Definition new_env : M nat :=
  fun s => (Ret (next_env s), set_next_env (S (next_env s)) s).

(** ** The adapter *)

Definition stat (path : string) (callback : cont) : M unit :=
  fs_call (ReqStat path) (D_stat callback).

Definition exists_ (path : string) (callback : cont) : M unit :=
  stat path (K_exists callback).

(** The callbacks that take JavaScript arguments. *)
Fixpoint apply (k : cont) (args : list value) : M unit :=
  match k with
  | KUser id throws =>
      emit (ECallback id args) ;;
      if throws args then throw (UserError id) else ret tt
  | K_exists callback =>
      if truthy (arg 0 args) then apply callback [VBool false]
      else apply callback [VBool true]
  | K_readdir_entry env contents idx callback =>
      e <- get_readdir_env env ;;
      let stats' := array_set (stats e) idx (js_or (arg 0 args) (arg 1 args)) in
      let count' := count e - 1 in
      put_readdir_env env (mkRD count' stats') ;;
      if count' <=? 0
      then apply callback [VNull; VArray (VString <$> contents); VArray stats']
      else ret tt
  | K_mkdir_stat path callback =>
      try_finally (apply callback [arg 0 args; arg 1 args])
        (change [VString (_parentPath path)])
  | K_readFile_stat env callback =>
      let _err := arg 0 args in
      let _stat := arg 1 args in
      e <- get_readFile_env env ;;
      if done e
      then apply callback [_err; if truthy _err then VNull else data e; _stat]
      else put_readFile_env env (mkRF true (data e) _stat _err)
  | K_writeFile_exists path data encoding callback =>
      fs_call (ReqWriteFile path data encoding)
        (D_writeFile path (arg 0 args) callback)
  | K_writeFile_stat path alreadyExists callback =>
      try_finally (apply callback [arg 0 args; arg 1 args])
        (if truthy alreadyExists
         then change [VString path; arg 1 args]
         else change [VString (_parentPath path)])
  end.

(** [contents.forEach(function (val, idx) { stat(path + "/" + val, ...) })] *)
Fixpoint readdir_forEach (path : string) (env : nat) (contents : list string)
    (callback : cont) (idx : nat) (rest : list string) : M unit :=
  match rest with
  | [] => ret tt
  | val :: rest' =>
      stat (path +:+ "/" +:+ val) (K_readdir_entry env contents idx callback) ;;
      readdir_forEach path env contents callback (S idx) rest'
  end.

(** The callbacks that take the completion of a driver call. *)
Definition resume (k : dcont) (r : response) : M unit :=
  match k, r with
  | D_stat callback, RStat (inl err) => apply callback [_mapError (Some err)]
  | D_stat callback, RStat (inr stats) =>
      let fsStats :=
        mkStats (n_isFile stats) (n_mtime stats) (n_size stats) in
      apply callback [VNull; VStats fsStats]
  | D_readdir path callback, RReaddir (inl err) =>
      apply callback [_mapError (Some err)]
  | D_readdir path callback, RReaddir (inr contents) =>
      let count := Z.of_nat (length contents) in
      if count =? 0 then apply callback [VNull; VArray []; VArray []]
      else
        env <- new_env ;;
        put_readdir_env env (mkRD count []) ;;
        readdir_forEach path env contents callback 0 contents
  | D_mkdir path callback, RMkdir (Some err) =>
      apply callback [_mapError (Some err)]
  | D_mkdir path callback, RMkdir None => stat path (K_mkdir_stat path callback)
  | D_readFile env callback, RReadFile (inl _err) =>
      apply callback [_mapError (Some _err)]
  | D_readFile env callback, RReadFile (inr _data) =>
      e <- get_readFile_env env ;;
      if done e
      then apply callback
             [err e; if truthy (err e) then VNull else VString _data;
              stat_var e]
      else put_readFile_env env (mkRF true (VString _data) (stat_var e) (err e))
  | D_writeFile path alreadyExists callback, RWriteFile (Some err) =>
      apply callback [_mapError (Some err)]
  | D_writeFile path alreadyExists callback, RWriteFile None =>
      stat path (K_writeFile_stat path alreadyExists callback)
  | D_unlink path callback, RUnlink err =>
      try_finally (apply callback [_mapError err])
        (change [VString (_parentPath path)])
  | _, _ => throw TypeError
  end.

Definition readdir (path : string) (callback : cont) : M unit :=
  fs_call (ReqReaddir path) (D_readdir path callback).

(** [mode = None] is the two-argument call [mkdir(path, callback)], where
    the callback arrives in the position of [mode]; [parseInt("0755", 8)]
    is 493. *)
Definition mkdir (path : string) (mode : option Z) (callback : cont) : M unit :=
  let mode := match mode with Some m => m | None => 493 end in
  fs_call (ReqMkdir path mode) (D_mkdir path callback).

Record options := mkOptions { encoding : option string }.

(** [options.encoding || "utf8"] *)
Definition encoding_of (o : options) : string :=
  match encoding o with
  | Some e => if String.eqb e "" then "utf8" else e
  | None => "utf8"
  end.

Definition readFile (path : string) (o : options) (callback : cont) : M unit :=
  let encoding := encoding_of o in
  env <- new_env ;;
  put_readFile_env env (mkRF false VUndefined VUndefined VUndefined) ;;
  fs_call (ReqReadFile path encoding) (D_readFile env callback) ;;
  stat path (K_readFile_stat env callback).

Definition writeFile (path data : string) (o : options) (callback : cont)
    : M unit :=
  let encoding := encoding_of o in
  exists_ path (K_writeFile_exists path data encoding callback).

Definition unlink (path : string) (callback : cont) : M unit :=
  fs_call (ReqUnlink path) (D_unlink path callback).

(** [initWatchers(callback)]: the listener is identified by a number; the
    focus handler keeps the [callback] it was installed with. *)
Definition initWatchers (callback : nat) : M unit :=
  fun s =>
    (Ret tt,
     set_focus_handlers (focus_handlers s ++ [callback])
       (set_changeCallback (Some callback) s)).

Definition watchPath (path : string) : M unit := ret tt.
Definition unwatchPath (path : string) : M unit := ret tt.
Definition unwatchAll : M unit := ret tt.

(** ** The event loop *)

(** One turn: an exception nobody catches ends the turn and is reported. *)
Definition run (m : M unit) (s : State) : State :=
  match m s with
  | (Ret _, s') => s'
  | (Throw e, s') => set_trace (trace s' ++ [EUncaught e]) s'
  end.

(** The outstanding driver call [c] completes with [r]. *)
Definition complete (c : nat) (r : response) (s : State) : option State :=
  match pending s !! c with
  | Some (q, k) =>
      if answers q r
      then Some (run (resume k r) (set_pending (delete c (pending s)) s))
      else None
  | None => None
  end.

(** The window gets the focus: every installed handler sends a wholesale
    change, [callback(null)]. *)
Definition focus (s : State) : State :=
  set_trace (trace s ++ ((fun l => EChange l [VNull]) <$> focus_handlers s)) s.

(** A schedule of completions, in the order in which they happen. *)
Fixpoint completes (sched : list (nat * response)) (s : State) : option State :=
  match sched with
  | [] => Some s
  | (c, r) :: sched' =>
      match complete c r s with
      | Some s' => completes sched' s'
      | None => None
      end
  end.

(** *** Reading a trace *)

Definition callbacks_of (id : nat) (t : list event) : list (list value) :=
  omap (fun e => match e with
                 | ECallback i args => if decide (i = id) then Some args else None
                 | _ => None
                 end) t.

Definition changes_of (l : nat) (t : list event) : list (list value) :=
  omap (fun e => match e with
                 | EChange i args => if decide (i = l) then Some args else None
                 | _ => None
                 end) t.

(** *** What the adapter's [stat] passes to its callback *)

Definition fsStats_of (st : native_stats) : FileSystemStats :=
  mkStats (n_isFile st) (n_mtime st) (n_size st).

Definition stat_args (r : native_error + native_stats) : list value :=
  match r with
  | inl e => [_mapError (Some e)]
  | inr st => [VNull; VStats (fsStats_of st)]
  end.

(** The two actual arguments of [callback(err, stat)]. *)
Definition err_stat (r : native_error + native_stats) : list value :=
  [arg 0 (stat_args r); arg 1 (stat_args r)].

(** [err || stat], the slot of one directory entry. *)
Definition slot (r : native_error + native_stats) : value :=
  match r with
  | inl e => _mapError (Some e)
  | inr st => VStats (fsStats_of st)
  end.

(** Whether a driver call completed without an error. *)
Definition succeeded {A B} (r : A + B) : bool :=
  match r with inl _ => false | inr _ => true end.

(** The report of the exception a caller's callback lets escape. *)
Definition uncaught (id : nat) (throws : list value -> bool)
    (args : list value) : list event :=
  if throws args then [EUncaught (UserError id)] else [].

(** The two orders in which the calls of one [readFile] can complete. *)
Inductive order := ReadFirst | StatFirst.

Definition readFile_schedule (o : order) (c : nat)
    (rr : native_error + string) (rs : native_error + native_stats)
    : list (nat * response) :=
  match o with
  | ReadFirst => [(c, RReadFile rr); (S c, RStat rs)]
  | StatFirst => [(S c, RStat rs); (c, RReadFile rr)]
  end.

(** What the combined callback of [readFile] receives. *)
Definition readFile_result (rr : native_error + string)
    (rs : native_error + native_stats) : list value :=
  match rr, rs with
  | inl e, _ => [_mapError (Some e)]
  | inr _, inl e => [_mapError (Some e); VNull; VUndefined]
  | inr d, inr st => [VNull; VString d; VStats (fsStats_of st)]
  end.

(** The change signal of a [writeFile] whose write succeeded. *)
Definition writeFile_signal (path : string)
    (before after : native_error + native_stats) : list value :=
  match before with
  | inl _ => [VString (_parentPath path)]
  | inr _ => [VString path; arg 1 (stat_args after)]
  end.

(** The caller's callback invocations and the change signals of a trace,
    in the order in which they happened. *)
Definition notifications (t : list event) : list event :=
  List.filter (fun e => match e with
                        | ECallback _ _ | EChange _ _ => true
                        | _ => false
                        end) t.

(** The operations that send a change signal, with the answers of the
    driver: an [unlink], a [writeFile] whose write succeeds and a [mkdir]
    whose create succeeds. *)
Inductive operation :=
| Unlink (path : string) (r : option native_error)
| WriteFile (path data : string) (o : options)
    (before after : native_error + native_stats)
| Mkdir (path : string) (mode : option Z) (r : native_error + native_stats).

(** The operation is called and the driver answers. *)
Definition perform (id : nat) (throws : list value -> bool) (op : operation)
    (s : State) : option State :=
  let c := next_call s in
  match op with
  | Unlink path r =>
      complete c (RUnlink r) (run (unlink path (KUser id throws)) s)
  | WriteFile path data o before after =>
      completes [(c, RStat before); (S c, RWriteFile None);
                 (S (S c), RStat after)]
        (run (writeFile path data o (KUser id throws)) s)
  | Mkdir path mode r =>
      completes [(c, RMkdir None); (S c, RStat r)]
        (run (mkdir path mode (KUser id throws)) s)
  end.

(** The arguments of the change signal the operation sends. *)
Definition signal_of (op : operation) : list value :=
  match op with
  | Unlink path _ | Mkdir path _ _ => [VString (_parentPath path)]
  | WriteFile path _ _ before after => writeFile_signal path before after
  end.

(** A run of operations, each completing before the next is called. *)
Fixpoint perform_all (id : nat) (throws : list value -> bool)
    (ops : list operation) (s : State) : option State :=
  match ops with
  | [] => Some s
  | op :: ops' =>
      match perform id throws op s with
      | Some s' => perform_all id throws ops' s'
      | None => None
      end
  end.

(** The stat calls one [readdir] issues, in the order of the entries. *)
Definition readdir_requests (path : string) (c : nat)
    (contents : list string) : list event :=
  imap (fun i val => EDriver (c + i) (ReqStat (path +:+ "/" +:+ val))) contents.

(** The outstanding stat call of entry [i] of a [readdir]. *)
Definition readdir_entry (path : string) (env : nat) (contents : list string)
    (callback : cont) (i : nat) (val : string) : request * dcont :=
  (ReqStat (path +:+ "/" +:+ val),
   D_stat (K_readdir_entry env contents i callback)).

(** The arguments of [callback(null, contents, stats)]. *)
Definition readdir_listing (contents : list string) (a : list value)
    : list value :=
  [VNull; VArray (VString <$> contents); VArray a].

(** The slots of the entries in [D] hold their outcomes. *)
Definition slots_filled (contents : list string)
    (out : nat → native_error + native_stats) (D : list nat) (a : list value)
    : Prop :=
  (length a ≤ length contents)%nat ∧
  ∀ i, i ∈ D → a !! i = Some (slot (out i)).

(** The module after [initWatchers(l)]. *)
Definition watched (l : nat) : State := run (initWatchers l) initial.

(** The module variables that no adapter operation assigns. *)
Definition module_vars_kept (s s' : State) : Prop :=
  _changeCallback s' = _changeCallback s ∧
  _changeTimeout s' = _changeTimeout s ∧
  _pendingChanges s' = _pendingChanges s.

Definition keeps {A} (m : M A) : Prop := ∀ s, module_vars_kept s (m s).2.

(** ** The shell

    [rename] and [moveToTrash] go to the native shell, [appshell.fs], not to
    [_fs].  Its outstanding calls are kept beside the state of the module;
    a completion passes a first argument that is an error or falsy, and
    possibly more arguments. *)

Inductive shell_request :=
| ReqMv (oldPath newPath : string)
| ReqMoveToTrash (path : string).

(** The callbacks handed to the shell: [_wrap(callback)] and the anonymous
    function of [moveToTrash]. *)
Inductive shell_cont :=
| A_wrap (cb : cont)
| A_moveToTrash (path : string) (callback : cont).

Record Shell := mkShell {
  module_state : State;
  shell_pending : gmap nat (shell_request * shell_cont);
  shell_next : nat
}.

(** The function [_wrap(cb)] returns: the first argument is translated,
    the others are passed on; called without arguments it passes [null]. *)
Definition _wrap (cb : cont) (err : option native_error) (rest : list value)
    : M unit :=
  let args := _mapError err :: rest in
  apply cb args.

Definition shell_call (q : shell_request) (k : shell_cont) (sh : Shell)
    : Shell :=
  mkShell (module_state sh)
    (<[shell_next sh := (q, k)]> (shell_pending sh)) (S (shell_next sh)).

Definition rename (oldPath newPath : string) (callback : cont) (sh : Shell)
    : Shell :=
  shell_call (ReqMv oldPath newPath) (A_wrap callback) sh.

Definition moveToTrash (path : string) (callback : cont) (sh : Shell)
    : Shell :=
  shell_call (ReqMoveToTrash path) (A_moveToTrash path callback) sh.

Definition shell_resume (k : shell_cont) (err : option native_error)
    (rest : list value) : M unit :=
  match k with
  | A_wrap cb => _wrap cb err rest
  | A_moveToTrash path callback =>
      try_finally (apply callback [_mapError err])
        (change [VString (_parentPath path)])
  end.

(** The outstanding shell call [c] completes with [(err, rest...)]. *)
Definition shell_complete (c : nat) (err : option native_error)
    (rest : list value) (sh : Shell) : option Shell :=
  match shell_pending sh !! c with
  | Some (q, k) =>
      Some (mkShell (run (shell_resume k err rest) (module_state sh))
              (delete c (shell_pending sh)) (shell_next sh))
  | None => None
  end.

(** ** Concurrent readFile calls

    One [readFile] call in flight: its closure environment, its two driver
    calls and the caller's callback.  The phase tells which of the two
    calls have completed, and with what. *)

Record readFile_call := mkCall {
  rf_env : nat; rf_read : nat; rf_stat : nat;
  rf_path : string; rf_encoding : string;
  rf_id : nat; rf_throws : list value → bool
}.

(** Which of the two calls of a [readFile] have completed. *)
Inductive readFile_phase :=
| Issued
| ReadDone (rr : native_error + string)
| StatDone (rs : native_error + native_stats)
| BothDone (rr : native_error + string) (rs : native_error + native_stats).

(** The shared variables in each phase; after both calls nothing is read
    from them any more. *)
Definition phase_env (ph : readFile_phase) : option readFile_env :=
  match ph with
  | Issued | ReadDone (inl _) => Some (mkRF false VUndefined VUndefined VUndefined)
  | ReadDone (inr d) => Some (mkRF true (VString d) VUndefined VUndefined)
  | StatDone rs =>
      Some (mkRF true VUndefined (arg 1 (stat_args rs)) (arg 0 (stat_args rs)))
  | BothDone _ _ => None
  end.

(** The invocations of the callback made so far. *)
Definition phase_called (ph : readFile_phase) : list (list value) :=
  match ph with
  | ReadDone (inl e) => [[_mapError (Some e)]]
  | BothDone rr rs => [readFile_result rr rs]
  | _ => []
  end.

Definition read_outstanding (ph : readFile_phase) : bool :=
  match ph with Issued | StatDone _ => true | _ => false end.

Definition stat_outstanding (ph : readFile_phase) : bool :=
  match ph with Issued | ReadDone _ => true | _ => false end.

Definition after_read (ph : readFile_phase) (rr : native_error + string)
    : readFile_phase :=
  match ph with StatDone rs => BothDone rr rs | _ => ReadDone rr end.

Definition after_stat (ph : readFile_phase) (rs : native_error + native_stats)
    : readFile_phase :=
  match ph with ReadDone rr => BothDone rr rs | _ => StatDone rs end.

(** The call [i] is in phase [ph] in state [s], its callback having been
    invoked [before] earlier. *)
Definition in_phase (i : readFile_call) (ph : readFile_phase)
    (before : list (list value)) (s : State) : Prop :=
  let cb := KUser (rf_id i) (rf_throws i) in
  (∀ e, phase_env ph = Some e → readFile_envs s !! rf_env i = Some e) ∧
  pending s !! rf_read i =
    (if read_outstanding ph
     then Some (ReqReadFile (rf_path i) (rf_encoding i), D_readFile (rf_env i) cb)
     else None) ∧
  pending s !! rf_stat i =
    (if stat_outstanding ph
     then Some (ReqStat (rf_path i), D_stat (K_readFile_stat (rf_env i) cb))
     else None) ∧
  callbacks_of (rf_id i) (trace s) = before ++ phase_called ph.

(** Two calls in flight that stem from different [readFile] calls. *)
Definition apart (i j : readFile_call) : Prop :=
  rf_env i ≠ rf_env j ∧ rf_id i ≠ rf_id j ∧
  rf_read i ≠ rf_read j ∧ rf_read i ≠ rf_stat j ∧
  rf_stat i ≠ rf_read j ∧ rf_stat i ≠ rf_stat j.

(** * Properties *)

Arguments _mapError : simpl never.
Arguments _parentPath : simpl never.
Arguments encoding_of : simpl never.

(** ** The parent path *)

Section ParentPath.

Local Abbreviation slash := "/"%char.
Local Abbreviation len s := (Z.of_nat (String.length s)).

Lemma lastIndexOf_aux_range c s i start :
  0 <= i →
  let r := lastIndexOf_aux c s i start in
  r = -1 ∨ (i <= r ∧ r <= start ∧ r < i + len s).
Proof.
  revert i. induction s as [|a s IH]; intros i Hi; cbn -[Z.of_nat]; [by left|].
  destruct (IH (i + 1)) as [->|(? & ? & ?)]; [lia| |].
  - cbn. destruct (Ascii.eqb a c); cbn; [|by left].
    destruct (Z.leb_spec i start); [right; lia | by left].
  - destruct (Z.leb_spec 0 (lastIndexOf_aux c s (i + 1) start)); right; lia.
Qed.

Lemma lastIndexOf_aux_full s i start :
  0 <= i → i + len s - 1 <= start →
  let r := lastIndexOf_aux slash s i start in
  (has_slash s = false ∧ r = -1) ∨
  (has_slash s = true ∧ i <= r < i + len s ∧
   String.substring 0 (Z.to_nat (r - i + 1)) s = through_last_slash s).
Proof.
  revert i. induction s as [|a s IH]; intros i Hi Hs; cbn -[Z.of_nat]; [by left|].
  cbn -[Z.of_nat] in Hs.
  destruct (IH (i + 1)) as [[Hn ->]|(Hy & Hr & Hsub)]; [lia | lia | |].
  - cbn -[Z.of_nat]. rewrite Hn, orb_false_r.
    destruct (Ascii.eqb a slash); cbn -[Z.of_nat]; [|by left].
    destruct (Z.leb_spec i start); [|lia].
    right. repeat split; try lia.
    replace (Z.to_nat (i - i + 1)) with 1%nat by lia. cbn. by destruct s.
  - destruct (Z.leb_spec 0 (lastIndexOf_aux slash s (i + 1) start)); [|lia].
    right. rewrite Hy, orb_true_r. repeat split; try lia.
    replace (Z.to_nat (lastIndexOf_aux slash s (i + 1) start - i + 1))
      with (S (Z.to_nat (lastIndexOf_aux slash s (i + 1) start - (i + 1) + 1)))
      by lia.
    cbn. by rewrite Hsub.
Qed.

Lemma lastIndexOf_aux_last s i start :
  0 <= i → i + len s - 1 <= start → s ≠ EmptyString →
  lastIndexOf_aux slash s i start = i + len s - 1 ↔ ends_with_slash s = true.
Proof.
  revert i. induction s as [|a s IH]; intros i Hi Hs Hne; [done|].
  cbn -[Z.of_nat] in *.
  destruct s as [|b s].
  - cbn. destruct (Ascii.eqb a slash); cbn; [|split; [lia|done]].
    destruct (Z.leb_spec i start); [|lia]. split; [done|lia].
  - specialize (IH (i + 1) ltac:(lia) ltac:(lia) ltac:(done)).
    pose proof (lastIndexOf_aux_range slash (String b s) (i + 1) start
                  ltac:(lia)) as Hr.
    cbn zeta in Hr.
    set (r := lastIndexOf_aux slash (String b s) (i + 1) start) in *.
    destruct Hr as [Hr|Hr].
    + rewrite Hr in *. cbn -[Z.of_nat].
      split.
      * intros H. exfalso.
        destruct (Ascii.eqb a slash && (i <=? start)); cbn -[Z.of_nat] in H; lia.
      * intros H. apply IH in H. cbn -[Z.of_nat] in H. lia.
    + destruct (Z.leb_spec 0 r); [|lia].
      rewrite <- IH. lia.
Qed.

Lemma lastIndexOf_aux_bounded c s i start :
  s ≠ EmptyString → start = i + len s - 2 →
  lastIndexOf_aux c s i start = lastIndexOf_aux c (drop_last s) i start.
Proof.
  revert i. induction s as [|a s IH]; intros i Hne Hs; [done|].
  destruct s as [|b s].
  - cbn -[Z.of_nat] in *. destruct (Z.leb_spec i start); [lia|].
    by rewrite andb_false_r.
  - change (drop_last (String a (String b s)))
      with (String a (drop_last (String b s))).
    cbn -[Z.of_nat drop_last] in *.
    rewrite <- (IH (i + 1)); [done | done | lia].
Qed.

Lemma length_drop_last s :
  s ≠ EmptyString → len (drop_last s) = len s - 1.
Proof.
  induction s as [|a s IH]; [done|]. intros _.
  destruct s as [|b s]; [done|].
  change (drop_last (String a (String b s)))
    with (String a (drop_last (String b s))).
  cbn -[Z.of_nat drop_last] in *. specialize (IH ltac:(done)). lia.
Qed.

Lemma substring_drop_last s n :
  (Z.of_nat n < len s) →
  String.substring 0 n s = String.substring 0 n (drop_last s).
Proof.
  revert n. induction s as [|a s IH]; intros n Hn; [cbn in Hn; lia|].
  destruct s as [|b s].
  - cbn in Hn. by replace n with 0%nat by lia.
  - change (drop_last (String a (String b s)))
      with (String a (drop_last (String b s))).
    destruct n as [|n]; [done|].
    cbn -[Z.of_nat drop_last] in *. f_equal. apply IH. lia.
Qed.

Lemma substr_prefix s n :
  0 <= n <= len s → substr s 0 n = String.substring 0 (Z.to_nat n) s.
Proof.
  intros Hn. unfold substr. cbn -[Z.of_nat].
  rewrite Z.min_l by lia. cbn -[Z.of_nat]. f_equal. lia.
Qed.

Lemma substr_zero s : substr s 0 (-1 + 1) = EmptyString.
Proof. rewrite substr_prefix by lia. by destruct s. Qed.

Lemma through_last_slash_none s :
  has_slash s = false → through_last_slash s = EmptyString.
Proof.
  destruct s as [|a s]; [done|]. cbn. intros [Ha Hs]%orb_false_elim.
  by rewrite Hs, Ha.
Qed.

Lemma through_last_slash_ends s :
  has_slash s = true → ends_with_slash (through_last_slash s) = true.
Proof.
  induction s as [|a s IH]; [done|]. cbn. intros H.
  destruct (has_slash s) eqn:Hs.
  - specialize (IH eq_refl). cbn.
    destruct (through_last_slash s); [done|exact IH].
  - rewrite orb_false_r in H. rewrite H. cbn. by rewrite H.
Qed.

Lemma ends_with_slash_has_slash s :
  ends_with_slash s = true → has_slash s = true.
Proof.
  induction s as [|a s IH]; [done|]. cbn. destruct s as [|b s].
  - intros ->. done.
  - intros H. rewrite (IH H). apply orb_true_r.
Qed.

Lemma has_slash_drop_last s :
  ends_with_slash s = false → has_slash s = has_slash (drop_last s).
Proof.
  induction s as [|a s IH]; [done|]. destruct s as [|b s].
  - cbn. intros ->. done.
  - change (drop_last (String a (String b s)))
      with (String a (drop_last (String b s))).
    cbn -[drop_last]. intros H. cbn -[drop_last] in IH. by rewrite IH.
Qed.

Lemma ends_with_slash_app s :
  ends_with_slash (s +:+ "/") = true.
Proof.
  induction s as [|a s IH]; [done|].
  change (String a s +:+ "/") with (String a (s +:+ "/")).
  cbn. destruct (s +:+ "/") eqn:E; [by destruct s|]. exact IH.
Qed.

Lemma drop_last_app s : drop_last (s +:+ "/") = s.
Proof.
  induction s as [|a s IH]; [done|].
  change (String a s +:+ "/") with (String a (s +:+ "/")).
  cbn. destruct (s +:+ "/") eqn:E; [by destruct s|]. by rewrite IH.
Qed.

Lemma ends_with_slash_single s :
  ends_with_slash s = true → String.length s = 1%nat → s = "/".
Proof.
  destruct s as [|a [|b s]]; [done| |done]. cbn.
  intros H%Ascii.eqb_eq _. by subst.
Qed.

(** The code agrees with the specification's parent on every path but the
    root. *)
Lemma parentPath_spec path : path ≠ "/" → _parentPath path = parent_spec path.
Proof.
  intros Hroot. destruct (decide (path = EmptyString)) as [->|Hne]; [done|].
  unfold _parentPath, parent_spec, strip_trailing_slash, lastIndexOf.
  set (n := len path).
  assert (1 <= n) by (subst n; destruct path; [done | cbn; lia]).
  pose proof (lastIndexOf_aux_last path 0 n ltac:(lia) ltac:(lia) Hne) as Hl.
  destruct (ends_with_slash path) eqn:He.
  - rewrite (proj2 Hl eq_refl). fold n. rewrite Z.eqb_refl.
    assert (2 <= n).
    { destruct (decide (n = 1)) as [E|]; [|lia].
      destruct Hroot. apply ends_with_slash_single; [done|lia]. }
    replace (Z.max (0 + n - 1 - 1) 0) with (0 + n - 2) by lia.
    rewrite lastIndexOf_aux_bounded by (done || lia).
    pose proof (length_drop_last path Hne) as Hd.
    destruct (lastIndexOf_aux_full (drop_last path) 0 (0 + n - 2))
      as [[Hn Hr]|(Hy & Hr & Hsub)]; [lia | lia | |].
    + rewrite Hr, through_last_slash_none by done. apply substr_zero.
    + rewrite substr_prefix by lia.
      rewrite substring_drop_last by lia.
      rewrite <- Hsub. f_equal. lia.
  - destruct (Z.eqb_spec (lastIndexOf_aux slash path 0 n) (n - 1)) as [E|_].
    { apply Hl in E. congruence. }
    destruct (lastIndexOf_aux_full path 0 n)
      as [[Hn Hr]|(Hy & Hr & Hsub)]; [lia | lia | |].
    + rewrite Hr, through_last_slash_none by done. apply substr_zero.
    + rewrite substr_prefix by lia. rewrite <- Hsub. f_equal. lia.
Qed.

Lemma parent_spec_shorter path :
  path ≠ EmptyString → parent_spec path ≠ path.
Proof.
  intros Hne E. unfold parent_spec, strip_trailing_slash in E.
  destruct (ends_with_slash path) eqn:He.
  - pose proof (length_drop_last path Hne) as Hd.
    assert (len (through_last_slash (drop_last path)) <= len (drop_last path)).
    { clear. induction (drop_last path) as [|a s IH]; [done|].
      cbn -[Z.of_nat]. destruct (has_slash s); [cbn; lia|].
      destruct (Ascii.eqb a slash); cbn; lia. }
    rewrite E in *. lia.
  - destruct (has_slash path) eqn:Hs.
    + apply through_last_slash_ends in Hs. congruence.
    + rewrite through_last_slash_none in E by done. congruence.
Qed.

End ParentPath.

Example focus_sends_wholesale_change :
  trace (focus (watched 7)) = [EChange 7 [VNull]].
Proof. reflexivity. Qed.

Example parentPath_file : _parentPath "/a/b.txt" = "/a/".
Proof. reflexivity. Qed.

Example parentPath_double : _parentPath "/a//" = "/a/".
Proof. reflexivity. Qed.

Example parentPath_empty : _parentPath "" = "".
Proof. reflexivity. Qed.

Example parentPath_relative : _parentPath "a/" = "".
Proof. reflexivity. Qed.

(** C10, as the code has it: on every path other than the root ["/"] the
    parent is the prefix up to and including the last slash that remains
    once a single trailing slash is ignored; it therefore ends with a slash
    when the path has a slash that is not its last character, is empty when
    a path other than the root has none, and a trailing slash added to a
    non-empty path that does not end with one changes nothing, the parent
    of ["/a/b/"] and of ["/a/b"] being ["/a/"].  The parent of the root is
    the root itself. *)
Theorem parentPath_prefix_through_last_slash (path : string) :
  (path ≠ "/" → _parentPath path = parent_spec path) ∧
  (has_inner_slash path = true → ends_with_slash (_parentPath path) = true) ∧
  (path ≠ "/" → has_inner_slash path = false → _parentPath path = "") ∧
  (path ≠ "" → ends_with_slash path = false →
   _parentPath (path +:+ "/") = _parentPath path) ∧
  _parentPath "/a/b/" = "/a/" ∧ _parentPath "/a/b" = "/a/" ∧
  _parentPath "/" = "/".
Proof.
  split; [apply parentPath_spec|].
  split.
  { intros Hin. assert (path ≠ "/") as Hroot by (by intros ->).
    rewrite parentPath_spec by done.
    unfold parent_spec, strip_trailing_slash, has_inner_slash in *.
    destruct (ends_with_slash path) eqn:He.
    - by apply through_last_slash_ends.
    - apply through_last_slash_ends. by rewrite has_slash_drop_last. }
  split.
  { intros Hroot Hin. rewrite parentPath_spec by done.
    unfold parent_spec, strip_trailing_slash, has_inner_slash in *.
    destruct (ends_with_slash path) eqn:He.
    - by apply through_last_slash_none.
    - apply through_last_slash_none. by rewrite has_slash_drop_last. }
  split; [|done].
  intros Hne He.
  assert (path +:+ "/" ≠ "/") as Hroot.
  { destruct path as [|a p]; [done|].
    change (String a p +:+ "/") with (String a (p +:+ "/")).
    intros [= _ E]. by destruct p. }
  rewrite (parentPath_spec (path +:+ "/")) by done.
  rewrite (parentPath_spec path) by (by intros ->).
  unfold parent_spec, strip_trailing_slash.
  by rewrite ends_with_slash_app, drop_last_app, He.
Qed.

Lemma parentPath_prefix_through_last_slash_witness :
  _parentPath "/a/b.txt" = parent_spec "/a/b.txt" ∧
  ends_with_slash (_parentPath "/a/b.txt") = true ∧
  _parentPath "b.txt" = "" ∧
  _parentPath ("/a/b" +:+ "/") = _parentPath "/a/b".
Proof.
  split; [by apply (parentPath_prefix_through_last_slash "/a/b.txt")|].
  split; [by apply (parentPath_prefix_through_last_slash "/a/b.txt")|].
  split; [by apply (parentPath_prefix_through_last_slash "b.txt")|].
  by apply (parentPath_prefix_through_last_slash "/a/b").
Defined.

(** C10 as stated fails at the root: ["/"] has no slash other than its
    trailing one, yet its parent is ["/"], not the empty string, and the
    trailing slash is not ignored, the parent of [""] being [""]. *)
Lemma parentPath_root_not_empty :
  has_inner_slash "/" = false ∧ _parentPath "/" ≠ "" ∧
  _parentPath "/" ≠ parent_spec "/" ∧
  _parentPath ("" +:+ "/") ≠ _parentPath "".
Proof. by repeat split. Qed.

(** ** Symbolic execution of the adapter *)

Lemma truthy_mapError e : truthy (_mapError (Some e)) = true.
Proof. unfold _mapError. by repeat case_match. Qed.

Lemma mapError_not_null e : _mapError (Some e) ≠ VNull.
Proof. unfold _mapError. by repeat case_match. Qed.

Lemma js_or_stat_args r :
  js_or (arg 0 (stat_args r)) (arg 1 (stat_args r)) = slot r.
Proof.
  destruct r; cbn; unfold js_or; [by rewrite truthy_mapError | done].
Qed.

Lemma resume_D_stat k r : resume (D_stat k) (RStat r) = apply k (stat_args r).
Proof. by destruct r. Qed.

Lemma complete_Some c r s q k :
  pending s !! c = Some (q, k) → answers q r = true →
  complete c r s =
    Some (run (resume k r) (set_pending (delete c (pending s)) s)).
Proof. intros H1 H2. unfold complete. by rewrite H1, H2. Qed.

Ltac js_cbn :=
  cbn [_changeCallback _changeTimeout _pendingChanges focus_handlers
       readFile_envs readdir_envs next_env pending next_call trace
       completes apply readdir_forEach answers truthy arg nth js_or
       done data stat_var err count stats stat_args err_stat fst snd
       readFile_schedule readFile_result writeFile_signal fsStats_of].

Ltac js_unfold :=
  unfold run, resume, bind, ret, throw, try_finally, emit, fs_call,
    change, stat, exists_, get_readFile_env, put_readFile_env,
    get_readdir_env, put_readdir_env, new_env, set_changeCallback,
    set_focus_handlers, set_readFile_envs, set_readdir_envs, set_next_env,
    set_pending, set_next_call, set_trace.

Ltac js_norm :=
  repeat first
    [ progress js_cbn
    | progress js_unfold
    | rewrite lookup_insert_eq
    | rewrite truthy_mapError
    | rewrite lookup_delete_ne by lia
    | rewrite lookup_insert_ne by lia ].

(** One turn of the event loop: the completed call is looked up among the
    outstanding ones and its callback runs. *)
Ltac js_complete :=
  erewrite complete_Some; [ | js_norm; reflexivity | reflexivity ].

Ltac js_step := repeat first [ progress js_norm | js_complete ].

(** Closes a goal [∃ s', Some st = Some s' ∧ trace s' = ...]. *)
Ltac js_done :=
  eexists; split; [reflexivity|]; js_step; rewrite <- ?app_assoc; reflexivity.

Section Sequential.

Context (s : State) (path : string) (id : nat) (throws : list value → bool).

Local Abbreviation c := (next_call s).
Local Abbreviation cb := (KUser id throws).

Lemma exists_trace r :
  ∃ s', complete c (RStat r) (run (exists_ path cb) s) = Some s' ∧
    trace s' = trace s ++
      [EDriver c (ReqStat path);
       ECallback id [VBool (succeeded r)]] ++
      uncaught id throws [VBool (succeeded r)].
Proof.
  destruct s; unfold uncaught; js_step.
  destruct r; unfold succeeded; js_step; destruct (throws _); js_done.
Qed.

Lemma unlink_trace l r :
  _changeCallback s = Some l →
  ∃ s', complete c (RUnlink r) (run (unlink path cb) s) = Some s' ∧
    trace s' = trace s ++
      [EDriver c (ReqUnlink path); ECallback id [_mapError r];
       EChange l [VString (_parentPath path)]] ++
      uncaught id throws [_mapError r].
Proof.
  intros Hl. destruct s; cbn in Hl; subst. unfold unlink, uncaught; js_step.
  destruct (throws _); js_done.
Qed.

Lemma mkdir_trace_fail mode e :
  ∃ s', complete c (RMkdir (Some e)) (run (mkdir path mode cb) s) = Some s' ∧
    trace s' = trace s ++
      [EDriver c (ReqMkdir path (default 493 mode));
       ECallback id [_mapError (Some e)]] ++
      uncaught id throws [_mapError (Some e)].
Proof.
  destruct s; unfold mkdir, uncaught; js_step.
  destruct (throws _); destruct mode; js_done.
Qed.

Lemma mkdir_trace_ok l mode r :
  _changeCallback s = Some l →
  ∃ s', completes [(c, RMkdir None); (S c, RStat r)]
          (run (mkdir path mode cb) s) = Some s' ∧
    trace s' = trace s ++
      [EDriver c (ReqMkdir path (default 493 mode));
       EDriver (S c) (ReqStat path); ECallback id (err_stat r);
       EChange l [VString (_parentPath path)]] ++
      uncaught id throws (err_stat r).
Proof.
  intros Hl. destruct s; cbn in Hl; subst. unfold mkdir, uncaught; js_step.
  destruct r; js_step; destruct (throws _); destruct mode; js_done.
Qed.

Lemma writeFile_trace_fail data o r0 e :
  ∃ s', completes [(c, RStat r0); (S c, RWriteFile (Some e))]
          (run (writeFile path data o cb) s) = Some s' ∧
    trace s' = trace s ++
      [EDriver c (ReqStat path);
       EDriver (S c) (ReqWriteFile path data (encoding_of o));
       ECallback id [_mapError (Some e)]] ++
      uncaught id throws [_mapError (Some e)].
Proof.
  destruct s; unfold writeFile, uncaught; js_step.
  destruct r0; js_step; destruct (throws _); js_done.
Qed.

Lemma writeFile_trace_ok l data o r0 r2 :
  _changeCallback s = Some l →
  ∃ s', completes [(c, RStat r0); (S c, RWriteFile None); (S (S c), RStat r2)]
          (run (writeFile path data o cb) s) = Some s' ∧
    trace s' = trace s ++
      [EDriver c (ReqStat path);
       EDriver (S c) (ReqWriteFile path data (encoding_of o));
       EDriver (S (S c)) (ReqStat path); ECallback id (err_stat r2);
       EChange l (writeFile_signal path r0 r2)] ++
      uncaught id throws (err_stat r2).
Proof.
  intros Hl. destruct s; cbn in Hl; subst. unfold writeFile, uncaught; js_step.
  destruct r0; js_step; destruct r2; js_step; destruct (throws _); js_done.
Qed.

Lemma readFile_trace o ord rr rs :
  ∃ s', completes (readFile_schedule ord c rr rs)
          (run (readFile path o cb) s) = Some s' ∧
    trace s' = trace s ++
      [EDriver c (ReqReadFile path (encoding_of o));
       EDriver (S c) (ReqStat path); ECallback id (readFile_result rr rs)] ++
      uncaught id throws (readFile_result rr rs).
Proof.
  destruct s; unfold readFile, uncaught; js_step.
  destruct ord, rr, rs; js_step; destruct (throws _); js_step; js_done.
Qed.

End Sequential.

(** The first completion of a [readFile]: the stat and a successful read
    only record their outcome, a failed read calls back at once. *)
Section ReadFileFirst.

Context (s : State) (path : string) (o : options) (id : nat)
  (throws : list value → bool).

Local Abbreviation c := (next_call s).
Local Abbreviation cb := (KUser id throws).
Local Abbreviation s1 := (run (readFile path o cb) s).

Lemma readFile_issued :
  trace s1 = trace s ++
    [EDriver c (ReqReadFile path (encoding_of o)); EDriver (S c) (ReqStat path)].
Proof.
  destruct s; unfold readFile; js_step. by rewrite <- app_assoc.
Qed.

Lemma readFile_stat_first rs :
  ∃ s2, complete (S c) (RStat rs) s1 = Some s2 ∧ trace s2 = trace s1 ∧
    is_Some (pending s2 !! c).
Proof.
  destruct s; unfold readFile; js_step.
  destruct rs; js_step; (eexists; split; [reflexivity|]); js_step;
    (split; [reflexivity | by eexists]).
Qed.

Lemma readFile_read_first_ok d :
  ∃ s2, complete c (RReadFile (inr d)) s1 = Some s2 ∧ trace s2 = trace s1 ∧
    is_Some (pending s2 !! S c).
Proof.
  destruct s; unfold readFile; js_step.
  (eexists; split; [reflexivity|]); js_step;
    (split; [reflexivity | by eexists]).
Qed.

Lemma readFile_read_first_fail e :
  ∃ s2, complete c (RReadFile (inl e)) s1 = Some s2 ∧
    trace s2 = trace s1 ++ [ECallback id [_mapError (Some e)]] ++
      uncaught id throws [_mapError (Some e)] ∧
    is_Some (pending s2 !! S c).
Proof.
  destruct s; unfold readFile, uncaught; js_step.
  destruct (throws _); js_step; (eexists; split; [reflexivity|]); js_step;
    rewrite <- ?app_assoc; (split; [reflexivity | by eexists]).
Qed.

End ReadFileFirst.

(** *** Reading traces *)

Lemma callbacks_of_app id t1 t2 :
  callbacks_of id (t1 ++ t2) = callbacks_of id t1 ++ callbacks_of id t2.
Proof. apply omap_app. Qed.

Lemma changes_of_app l t1 t2 :
  changes_of l (t1 ++ t2) = changes_of l t1 ++ changes_of l t2.
Proof. apply omap_app. Qed.

Lemma notifications_app t1 t2 :
  notifications (t1 ++ t2) = notifications t1 ++ notifications t2.
Proof. apply List.filter_app. Qed.

Lemma callbacks_of_uncaught id id' throws args :
  callbacks_of id (uncaught id' throws args) = [].
Proof. unfold uncaught. by destruct (throws args). Qed.

Lemma changes_of_uncaught l id throws args :
  changes_of l (uncaught id throws args) = [].
Proof. unfold uncaught. by destruct (throws args). Qed.

Lemma notifications_uncaught id throws args :
  notifications (uncaught id throws args) = [].
Proof. unfold uncaught. by destruct (throws args). Qed.

(** ** The module variables *)

Lemma kept_refl s : module_vars_kept s s.
Proof. done. Qed.

Lemma kept_trans s1 s2 s3 :
  module_vars_kept s1 s2 → module_vars_kept s2 s3 → module_vars_kept s1 s3.
Proof. unfold module_vars_kept. intros (-> & -> & ->) (-> & -> & ->). done. Qed.

Lemma keeps_ret {A} (a : A) : keeps (ret a).
Proof. intros s. apply kept_refl. Qed.

Lemma keeps_throw {A} e : keeps (@throw A e).
Proof. intros s. apply kept_refl. Qed.

Lemma keeps_bind {A B} (m : M A) (f : A → M B) :
  keeps m → (∀ a, keeps (f a)) → keeps (bind m f).
Proof.
  intros Hm Hf s. unfold bind. specialize (Hm s).
  destruct (m s) as [[a|e] s']; [|done].
  eapply kept_trans; [exact Hm | apply Hf].
Qed.

Lemma keeps_try_finally body cleanup :
  keeps body → keeps cleanup → keeps (try_finally body cleanup).
Proof.
  intros Hb Hc s. unfold try_finally. specialize (Hb s).
  destruct (body s) as [[a|e] s']; cbn in Hb.
  - eapply kept_trans; [exact Hb | apply Hc].
  - specialize (Hc s'). destruct (cleanup s') as [[a|e'] s''];
      eapply kept_trans; eauto.
Qed.

Lemma keeps_emit e : keeps (emit e).
Proof. by intros []. Qed.

Lemma keeps_fs_call q k : keeps (fs_call q k).
Proof. by intros []. Qed.

Lemma keeps_change args : keeps (change args).
Proof. intros s. unfold change. destruct s as [[l|]]; done. Qed.

Lemma keeps_get_readFile_env env : keeps (get_readFile_env env).
Proof. intros s. unfold get_readFile_env. by destruct (_ !! _). Qed.

Lemma keeps_put_readFile_env env e : keeps (put_readFile_env env e).
Proof. by intros []. Qed.

Lemma keeps_get_readdir_env env : keeps (get_readdir_env env).
Proof. intros s. unfold get_readdir_env. by destruct (_ !! _). Qed.

Lemma keeps_put_readdir_env env e : keeps (put_readdir_env env e).
Proof. by intros []. Qed.

Lemma keeps_new_env : keeps new_env.
Proof. by intros []. Qed.

Create HintDb keeps.
#[local] Hint Resolve keeps_ret keeps_throw keeps_emit keeps_fs_call
  keeps_change keeps_get_readFile_env keeps_put_readFile_env
  keeps_get_readdir_env keeps_put_readdir_env keeps_new_env
  keeps_try_finally : keeps.

Lemma keeps_apply k args : keeps (apply k args).
Proof.
  revert args. induction k; intros args; cbn [apply].
  - apply keeps_bind; [auto with keeps|]. intros _.
    destruct (throws args); auto with keeps.
  - destruct (truthy _); apply IHk.
  - apply keeps_bind; [auto with keeps|]. intros e.
    apply keeps_bind; [auto with keeps|]. intros _.
    destruct (_ <=? _); [apply IHk | auto with keeps].
  - apply keeps_try_finally; [apply IHk | auto with keeps].
  - apply keeps_bind; [auto with keeps|]. intros e.
    destruct (done e); [apply IHk | auto with keeps].
  - unfold stat. auto with keeps.
  - apply keeps_try_finally; [apply IHk|].
    destruct (truthy _); auto with keeps.
Qed.

Lemma keeps_readdir_forEach path env contents callback idx rest :
  keeps (readdir_forEach path env contents callback idx rest).
Proof.
  revert idx. induction rest as [|val rest IH]; intros idx; cbn.
  - auto with keeps.
  - apply keeps_bind; [unfold stat; auto with keeps | intros _; apply IH].
Qed.

Lemma keeps_resume k r : keeps (resume k r).
Proof.
  destruct k, r; cbn [resume]; auto with keeps;
    repeat match goal with
      | |- keeps (match ?x with _ => _ end) => destruct x
      end;
    unfold stat; auto using keeps_apply with keeps.
  - apply keeps_bind; [auto with keeps|]. intros env.
    apply keeps_bind; [auto with keeps|]. intros _.
    apply keeps_readdir_forEach.
  - apply keeps_bind; [auto with keeps|]. intros e.
    destruct (done e); auto using keeps_apply with keeps.
Qed.

Lemma run_kept m s : keeps m → module_vars_kept s (run m s).
Proof.
  intros Hm. unfold run. specialize (Hm s).
  by destruct (m s) as [[a|e] s'].
Qed.

Lemma complete_kept c r s s' :
  complete c r s = Some s' → module_vars_kept s s'.
Proof.
  unfold complete. destruct (pending s !! c) as [[q k]|]; [|done].
  destruct (answers q r); [|done]. intros [= <-].
  eapply kept_trans; [|apply run_kept, keeps_resume]. by destruct s.
Qed.

(** ** exists *)

(** C9: whatever the underlying stat answers, [exists] calls its callback
    exactly once, with the single argument [true] when the stat succeeded
    and [false] when it failed, and never with an error. *)
Theorem exists_only_boolean (s : State) (path : string) (id : nat)
    (throws : list value → bool) (r : native_error + native_stats) :
  ∃ s' new,
    complete (next_call s) (RStat r)
      (run (exists_ path (KUser id throws)) s) = Some s' ∧
    trace s' = trace s ++ new ∧
    new = [EDriver (next_call s) (ReqStat path);
           ECallback id [VBool (succeeded r)]] ++
          uncaught id throws [VBool (succeeded r)] ∧
    callbacks_of id new = [[VBool (succeeded r)]].
Proof.
  destruct (exists_trace s path id throws r) as (s' & Hs & Ht).
  eexists s', _. split; [exact Hs|]. split; [exact Ht|]. split; [done|].
  rewrite callbacks_of_app, callbacks_of_uncaught. cbn.
  by rewrite decide_True.
Qed.

(** ** readFile *)

(** C3: in both completion orders, a failed read makes the combined
    callback receive the translated read error and nothing else, whatever
    the stat answers; a failed stat after a successful read makes it
    receive the stat error with null data and no stats; only when both
    succeed does it receive a null error, the data and the stats.  The
    translated error is one of the canonical errors. *)
Theorem readFile_failure_priority (s : State) (path : string) (o : options)
    (id : nat) (throws : list value → bool) (ord : order) :
  let c := next_call s in
  let s1 := run (readFile path o (KUser id throws)) s in
  let issued := [EDriver c (ReqReadFile path (encoding_of o));
                 EDriver (S c) (ReqStat path)] in
  (∀ e rs, ∃ s',
      completes (readFile_schedule ord c (inl e) rs) s1 = Some s' ∧
      trace s' = trace s ++ issued ++ [ECallback id [_mapError (Some e)]] ++
                 uncaught id throws [_mapError (Some e)]) ∧
  (∀ d e, ∃ s',
      completes (readFile_schedule ord c (inr d) (inl e)) s1 = Some s' ∧
      trace s' = trace s ++ issued ++
                 [ECallback id [_mapError (Some e); VNull; VUndefined]] ++
                 uncaught id throws [_mapError (Some e); VNull; VUndefined]) ∧
  (∀ d st, ∃ s',
      completes (readFile_schedule ord c (inr d) (inr st)) s1 = Some s' ∧
      trace s' = trace s ++ issued ++
                 [ECallback id [VNull; VString d; VStats (fsStats_of st)]] ++
                 uncaught id throws
                   [VNull; VString d; VStats (fsStats_of st)]) ∧
  (∀ e, ∃ err, _mapError (Some e) = VError err).
Proof.
  intros c s1 issued. repeat split.
  - intros e rs. apply (readFile_trace s path id throws o ord (inl e) rs).
  - intros d e. apply (readFile_trace s path id throws o ord (inr d) (inl e)).
  - intros d st.
    apply (readFile_trace s path id throws o ord (inr d) (inr st)).
  - intros e. unfold _mapError. repeat case_match; eauto.
Qed.

(** C4: for both orders of the two completions and all their outcomes, the
    callback of a [readFile] call is invoked exactly once. *)
Theorem readFile_calls_back_once (s : State) (path : string) (o : options)
    (id : nat) (throws : list value → bool) (ord : order)
    (rr : native_error + string) (rs : native_error + native_stats) :
  ∃ s' new args,
    completes (readFile_schedule ord (next_call s) rr rs)
      (run (readFile path o (KUser id throws)) s) = Some s' ∧
    trace s' = trace s ++ new ∧
    callbacks_of id new = [args].
Proof.
  destruct (readFile_trace s path id throws o ord rr rs) as (s' & Hs & Ht).
  eexists s', _, _. split; [exact Hs|]. split; [exact Ht|].
  rewrite callbacks_of_app, callbacks_of_uncaught. cbn.
  by rewrite decide_True.
Qed.

(** C5, as the code has it: the stat, or a read that succeeded, only
    records its outcome when it finishes first, and the second completion
    then triggers the callback; a read that failed invokes the callback at
    its own completion, also when the stat is still outstanding, and the
    stat then only records.  In every case the callback has been invoked
    once when both calls have completed. *)
Theorem readFile_completion_policy (s : State) (path : string) (o : options)
    (id : nat) (throws : list value → bool) :
  let c := next_call s in
  let s1 := run (readFile path o (KUser id throws)) s in
  (∀ rs, ∃ s2, complete (S c) (RStat rs) s1 = Some s2 ∧
      trace s2 = trace s1 ∧ is_Some (pending s2 !! c)) ∧
  (∀ d, ∃ s2, complete c (RReadFile (inr d)) s1 = Some s2 ∧
      trace s2 = trace s1 ∧ is_Some (pending s2 !! S c)) ∧
  (∀ e, ∃ s2, complete c (RReadFile (inl e)) s1 = Some s2 ∧
      trace s2 = trace s1 ++ [ECallback id [_mapError (Some e)]] ++
                 uncaught id throws [_mapError (Some e)] ∧
      is_Some (pending s2 !! S c)) ∧
  (∀ ord rr rs, ∃ s', completes (readFile_schedule ord c rr rs) s1 = Some s' ∧
      trace s' = trace s1 ++ [ECallback id (readFile_result rr rs)] ++
                 uncaught id throws (readFile_result rr rs)).
Proof.
  intros c s1. repeat split.
  - apply readFile_stat_first.
  - apply readFile_read_first_ok.
  - apply readFile_read_first_fail.
  - intros ord rr rs.
    destruct (readFile_trace s path id throws o ord rr rs) as (s' & Hs & Ht).
    exists s'. split; [exact Hs|]. subst s1.
    rewrite readFile_issued, Ht, <- app_assoc. done.
Qed.

(** C5 as stated fails: a read that fails first invokes the callback while
    the stat call is still outstanding. *)
Lemma readFile_failed_read_calls_back_early :
  ∃ s2,
    complete 0 (RReadFile (inl (mkNativeError "ENoEntry")))
      (run (readFile "/a/b.txt" (mkOptions None) (KUser 1 (λ _, false)))
         initial) = Some s2 ∧
    callbacks_of 1 (trace s2) = [[VError NOT_FOUND]] ∧
    is_Some (pending s2 !! 1%nat).
Proof.
  destruct (readFile_read_first_fail initial "/a/b.txt" (mkOptions None) 1
              (λ _, false) (mkNativeError "ENoEntry")) as (s2 & Hs & Ht & Hp).
  exists s2. split; [exact Hs|]. split; [|exact Hp].
  rewrite Ht. reflexivity.
Qed.

(** ** writeFile, mkdir, unlink *)

(** C6, as the code has it: with a listener registered, a [writeFile]
    whose write succeeds emits exactly one change signal: for the parent
    directory when the stat before the write failed, which is not the path
    itself unless the path is [""] or ["/"], the two paths that are their
    own parent; for the path itself, carrying the stats read after the
    write, when the path existed.  When the write fails the caller gets the
    translated error at once, no stat call follows and no change signal is
    emitted. *)
Theorem writeFile_change_signal (s : State) (path data : string) (o : options)
    (id : nat) (throws : list value → bool) (l : nat) :
  _changeCallback s = Some l →
  let c := next_call s in
  let s1 := run (writeFile path data o (KUser id throws)) s in
  let issued := [EDriver c (ReqStat path);
                 EDriver (S c) (ReqWriteFile path data (encoding_of o))] in
  (∀ e0 r2, ∃ s',
      completes [(c, RStat (inl e0)); (S c, RWriteFile None);
                 (S (S c), RStat r2)] s1 = Some s' ∧
      trace s' = trace s ++ issued ++
        [EDriver (S (S c)) (ReqStat path); ECallback id (err_stat r2);
         EChange l [VString (_parentPath path)]] ++
        uncaught id throws (err_stat r2)) ∧
  (_parentPath path = path ↔ path = "" ∨ path = "/") ∧
  (∀ st0 st2, ∃ s',
      completes [(c, RStat (inr st0)); (S c, RWriteFile None);
                 (S (S c), RStat (inr st2))] s1 = Some s' ∧
      trace s' = trace s ++ issued ++
        [EDriver (S (S c)) (ReqStat path);
         ECallback id [VNull; VStats (fsStats_of st2)];
         EChange l [VString path; VStats (fsStats_of st2)]] ++
        uncaught id throws [VNull; VStats (fsStats_of st2)]) ∧
  (∀ r0 e, ∃ s',
      completes [(c, RStat r0); (S c, RWriteFile (Some e))] s1 = Some s' ∧
      trace s' = trace s ++ issued ++ [ECallback id [_mapError (Some e)]] ++
        uncaught id throws [_mapError (Some e)]).
Proof.
  intros Hl c s1 issued. repeat split.
  - intros e0 r2.
    apply (writeFile_trace_ok s path id throws l data o (inl e0) r2 Hl).
  - intros Hself. destruct (decide (path = "")) as [|Hne]; [by left|].
    destruct (decide (path = "/")) as [|Hroot]; [by right|].
    rewrite parentPath_spec in Hself by done.
    by apply parent_spec_shorter in Hself.
  - by intros [-> | ->].
  - intros st0 st2.
    apply (writeFile_trace_ok s path id throws l data o (inr st0) (inr st2) Hl).
  - intros r0 e. apply writeFile_trace_fail.
Qed.

Lemma writeFile_change_signal_witness :
  ∃ s',
    completes [(0%nat, RStat (inl (mkNativeError "ENoEntry")));
               (1%nat, RWriteFile None);
               (2%nat, RStat (inr (mkNativeStats true 5 2)))]
      (run (writeFile "/a/b.txt" "hi" (mkOptions None) (KUser 1 (λ _, false)))
         (watched 7)) = Some s' ∧
    changes_of 7 (trace s') = [[VString "/a/"]] ∧
    _parentPath "/a/b.txt" ≠ "/a/b.txt".
Proof.
  destruct (writeFile_change_signal (watched 7) "/a/b.txt" "hi"
              (mkOptions None) 1 (λ _, false) 7 eq_refl) as (Hnew & Hp & _).
  destruct (Hnew (mkNativeError "ENoEntry") (inr (mkNativeStats true 5 2)))
    as (s' & Hs & Ht).
  exists s'. split; [exact Hs|]. split; [by rewrite Ht|].
  intros Hself. apply Hp in Hself. by destruct Hself.
Defined.

(** C6 as stated fails at the root: when the stat of ["/"] fails and the
    write succeeds, the signal for the parent directory is a signal for
    ["/"], the path itself. *)
Lemma writeFile_root_signals_itself :
  ∃ s',
    completes [(0%nat, RStat (inl (mkNativeError "ENoEntry")));
               (1%nat, RWriteFile None);
               (2%nat, RStat (inr (mkNativeStats true 5 2)))]
      (run (writeFile "/" "hi" (mkOptions None) (KUser 1 (λ _, false)))
         (watched 7)) = Some s' ∧
    changes_of 7 (trace s') = [[VString "/"]].
Proof.
  destruct (writeFile_trace_ok (watched 7) "/" 1 (λ _, false) 7 "hi"
              (mkOptions None) (inl (mkNativeError "ENoEntry"))
              (inr (mkNativeStats true 5 2)) eq_refl) as (s' & Hs & Ht).
  exists s'. split; [exact Hs|]. by rewrite Ht.
Qed.

(** C7, as the code has it: [unlink] emits the change signal of the parent
    directory after the caller's callback whether the primitive call
    succeeded or failed, and makes no stat call; [mkdir] emits it after the
    caller's callback when the directory was created, whatever the stat
    that follows answers, and emits none when the primitive call failed:
    the caller then only gets the translated error. *)
Theorem mkdir_unlink_change_signal (s : State) (path : string) (id : nat)
    (throws : list value → bool) (l : nat) :
  _changeCallback s = Some l →
  let c := next_call s in
  (∀ r, ∃ s',
      complete c (RUnlink r) (run (unlink path (KUser id throws)) s) = Some s' ∧
      trace s' = trace s ++
        [EDriver c (ReqUnlink path); ECallback id [_mapError r];
         EChange l [VString (_parentPath path)]] ++
        uncaught id throws [_mapError r]) ∧
  (∀ mode r, ∃ s',
      completes [(c, RMkdir None); (S c, RStat r)]
        (run (mkdir path mode (KUser id throws)) s) = Some s' ∧
      trace s' = trace s ++
        [EDriver c (ReqMkdir path (default 493 mode));
         EDriver (S c) (ReqStat path); ECallback id (err_stat r);
         EChange l [VString (_parentPath path)]] ++
        uncaught id throws (err_stat r)) ∧
  (∀ mode e, ∃ s',
      complete c (RMkdir (Some e))
        (run (mkdir path mode (KUser id throws)) s) = Some s' ∧
      trace s' = trace s ++
        [EDriver c (ReqMkdir path (default 493 mode));
         ECallback id [_mapError (Some e)]] ++
        uncaught id throws [_mapError (Some e)]).
Proof.
  intros Hl c. repeat split.
  - intros r. by apply unlink_trace.
  - intros mode r. by apply mkdir_trace_ok.
  - intros mode e. apply mkdir_trace_fail.
Qed.

Lemma mkdir_unlink_change_signal_witness :
  ∃ s',
    complete 0 (RUnlink (Some (mkNativeError "ENoEntry")))
      (run (unlink "/a/b.txt" (KUser 1 (λ _, false))) (watched 7)) = Some s' ∧
    notifications (trace s') =
      [ECallback 1 [VError NOT_FOUND]; EChange 7 [VString "/a/"]].
Proof.
  destruct (mkdir_unlink_change_signal (watched 7) "/a/b.txt" 1 (λ _, false) 7
              eq_refl) as (Hu & _).
  destruct (Hu (Some (mkNativeError "ENoEntry"))) as (s' & Hs & Ht).
  exists s'. split; [exact Hs | by rewrite Ht].
Defined.

(** C7 as stated fails for [mkdir]: when the primitive call fails, the
    caller is told so and the listener is not invoked. *)
Lemma mkdir_failure_no_signal :
  ∃ s',
    complete 0 (RMkdir (Some (mkNativeError "EExists")))
      (run (mkdir "/a/d" None (KUser 1 (λ _, false))) (watched 7)) = Some s' ∧
    callbacks_of 1 (trace s') = [[VError ALREADY_EXISTS]] ∧
    changes_of 7 (trace s') = [].
Proof.
  destruct (mkdir_trace_fail (watched 7) "/a/d" 1 (λ _, false) None
              (mkNativeError "EExists")) as (s' & Hs & Ht).
  exists s'. split; [exact Hs|]. by rewrite Ht.
Qed.

(** C8: in [writeFile] after a successful write, in [mkdir] after a
    successful create and in [unlink], the caller's callback is invoked
    first and the change signal is emitted after it, each exactly once,
    also when the callback throws: the exception leaves the turn only
    after the signal. *)
Theorem callback_before_change_signal (s : State) (path : string) (id : nat)
    (throws : list value → bool) (l : nat) :
  _changeCallback s = Some l →
  let c := next_call s in
  (∀ data o r0 r2, ∃ s' issued,
      completes [(c, RStat r0); (S c, RWriteFile None); (S (S c), RStat r2)]
        (run (writeFile path data o (KUser id throws)) s) = Some s' ∧
      trace s' = trace s ++ issued ++
        [ECallback id (err_stat r2); EChange l (writeFile_signal path r0 r2)] ++
        uncaught id throws (err_stat r2) ∧
      notifications issued = []) ∧
  (∀ mode r, ∃ s' issued,
      completes [(c, RMkdir None); (S c, RStat r)]
        (run (mkdir path mode (KUser id throws)) s) = Some s' ∧
      trace s' = trace s ++ issued ++
        [ECallback id (err_stat r); EChange l [VString (_parentPath path)]] ++
        uncaught id throws (err_stat r) ∧
      notifications issued = []) ∧
  (∀ r, ∃ s' issued,
      complete c (RUnlink r) (run (unlink path (KUser id throws)) s) = Some s' ∧
      trace s' = trace s ++ issued ++
        [ECallback id [_mapError r]; EChange l [VString (_parentPath path)]] ++
        uncaught id throws [_mapError r] ∧
      notifications issued = []) ∧
  (∀ args, notifications (uncaught id throws args) = []).
Proof.
  intros Hl c. repeat split.
  - intros data o r0 r2.
    destruct (writeFile_trace_ok s path id throws l data o r0 r2 Hl)
      as (s' & Hs & Ht).
    exists s', [EDriver c (ReqStat path);
                EDriver (S c) (ReqWriteFile path data (encoding_of o));
                EDriver (S (S c)) (ReqStat path)].
    split; [exact Hs|]. split; [by rewrite Ht | done].
  - intros mode r.
    destruct (mkdir_trace_ok s path id throws l mode r Hl) as (s' & Hs & Ht).
    exists s', [EDriver c (ReqMkdir path (default 493 mode));
                EDriver (S c) (ReqStat path)].
    split; [exact Hs|]. split; [by rewrite Ht | done].
  - intros r.
    destruct (unlink_trace s path id throws l r Hl) as (s' & Hs & Ht).
    exists s', [EDriver c (ReqUnlink path)].
    split; [exact Hs|]. split; [by rewrite Ht | done].
  - intros args. apply notifications_uncaught.
Qed.

Lemma callback_before_change_signal_witness :
  ∃ s',
    completes [(0%nat, RStat (inr (mkNativeStats true 5 2)));
               (1%nat, RWriteFile None);
               (2%nat, RStat (inr (mkNativeStats true 9 3)))]
      (run (writeFile "/a/b.txt" "hey" (mkOptions None) (KUser 1 (λ _, true)))
         (watched 7)) = Some s' ∧
    notifications (trace s') =
      [ECallback 1 [VNull; VStats (mkStats true 9 3)];
       EChange 7 [VString "/a/b.txt"; VStats (mkStats true 9 3)]] ∧
    last (trace s') = Some (EUncaught (UserError 1)).
Proof.
  destruct (callback_before_change_signal (watched 7) "/a/b.txt" 1 (λ _, true)
              7 eq_refl) as (Hw & _).
  destruct (Hw "hey" (mkOptions None) (inr (mkNativeStats true 5 2))
              (inr (mkNativeStats true 9 3))) as (s' & issued & Hs & Ht & Hn).
  exists s'. split; [exact Hs|]. rewrite Ht. split.
  - rewrite !notifications_app, Hn. reflexivity.
  - rewrite !app_assoc. apply last_snoc.
Defined.

(** ** Change signals *)

Lemma completes_kept sched : ∀ s s',
  completes sched s = Some s' → module_vars_kept s s'.
Proof.
  induction sched as [|[c r] sched IH]; intros s s'; cbn [completes].
  - intros [= <-]. apply kept_refl.
  - destruct (complete c r s) as [s1|] eqn:Hs1; [|done]. intros Hs'.
    eapply kept_trans; [by eapply complete_kept | by apply IH].
Qed.

Lemma perform_kept id throws op s s' :
  perform id throws op s = Some s' → module_vars_kept s s'.
Proof.
  destruct op; cbn [perform]; intros Hs'.
  - eapply kept_trans; [|by eapply complete_kept].
    apply run_kept, keeps_fs_call.
  - eapply kept_trans; [|by eapply completes_kept].
    apply run_kept, keeps_fs_call.
  - eapply kept_trans; [|by eapply completes_kept].
    apply run_kept, keeps_fs_call.
Qed.

(** One operation: the listener is invoked once, in the turn of the
    operation's last completion. *)
Lemma perform_changes id throws l op s :
  _changeCallback s = Some l →
  ∃ s', perform id throws op s = Some s' ∧
    changes_of l (trace s') = changes_of l (trace s) ++ [signal_of op].
Proof.
  intros Hl. destruct op as [path r|path data o r0 r2|path mode r];
    cbn [perform signal_of].
  - destruct (unlink_trace s path id throws l r Hl) as (s' & Hs & Ht).
    exists s'. split; [exact Hs|].
    rewrite Ht, !changes_of_app, changes_of_uncaught, app_nil_r. cbn.
    by rewrite decide_True.
  - destruct (writeFile_trace_ok s path id throws l data o r0 r2 Hl)
      as (s' & Hs & Ht).
    exists s'. split; [exact Hs|].
    rewrite Ht, !changes_of_app, changes_of_uncaught, app_nil_r. cbn.
    by rewrite decide_True.
  - destruct (mkdir_trace_ok s path id throws l mode r Hl) as (s' & Hs & Ht).
    exists s'. split; [exact Hs|].
    rewrite Ht, !changes_of_app, changes_of_uncaught, app_nil_r. cbn.
    by rewrite decide_True.
Qed.

Lemma perform_all_changes id throws l ops : ∀ s,
  _changeCallback s = Some l →
  ∃ s', perform_all id throws ops s = Some s' ∧
    changes_of l (trace s') = changes_of l (trace s) ++ (signal_of <$> ops) ∧
    module_vars_kept s s'.
Proof.
  induction ops as [|op ops IH]; intros s Hl; cbn [perform_all].
  - exists s. by rewrite app_nil_r.
  - destruct (perform_changes id throws l op s Hl) as (s1 & Hs1 & Ht1).
    rewrite Hs1. pose proof (perform_kept _ _ _ _ _ Hs1) as Hk.
    destruct (IH s1) as (s' & Hs' & Ht' & Hk').
    { destruct Hk as (-> & _). exact Hl. }
    exists s'. split; [exact Hs'|]. split; [|by eapply kept_trans].
    rewrite Ht', Ht1, <- app_assoc. done.
Qed.

(** C1, as the code has it: every change signal invokes the registered
    listener at once, in the turn that sends it.  After a run of N
    operations that each send a signal ([unlink], [writeFile] with a
    successful write, [mkdir] with a successful create) the listener has
    been invoked N times, once per signal and in their order, hence N
    times with the same arguments when the N signals are the same.  No turn
    of the event loop assigns [_pendingChanges] or [_changeTimeout]:
    nothing is accumulated and nothing is flushed. *)
Theorem change_signals_are_immediate (s : State) (id : nat)
    (throws : list value → bool) (l : nat) (ops : list operation) :
  _changeCallback s = Some l →
  (∃ s', perform_all id throws ops s = Some s' ∧
     changes_of l (trace s') = changes_of l (trace s) ++ (signal_of <$> ops) ∧
     (∀ signal, Forall (λ op, signal_of op = signal) ops →
        changes_of l (trace s') =
          changes_of l (trace s) ++ replicate (length ops) signal) ∧
     _pendingChanges s' = _pendingChanges s ∧
     _changeTimeout s' = _changeTimeout s) ∧
  (∀ c r t t', complete c r t = Some t' →
     _pendingChanges t' = _pendingChanges t ∧
     _changeTimeout t' = _changeTimeout t).
Proof.
  intros Hl. split.
  - destruct (perform_all_changes id throws l ops s Hl)
      as (s' & Hs & Ht & _ & Htimeout & Hpending).
    exists s'. repeat split; try done.
    intros signal Hall. rewrite Ht. f_equal.
    clear -Hall. induction Hall as [|op ops Hop _ IH]; [done|].
    cbn. by rewrite Hop, IH.
  - intros c r t t' (_ & Htimeout & Hpending)%complete_kept. done.
Qed.

Lemma change_signals_are_immediate_witness :
  ∃ s',
    perform_all 1 (λ _, false)
      [Unlink "/a/x" None; Mkdir "/a/d" None (inr (mkNativeStats false 5 0));
       Unlink "/a/z" (Some (mkNativeError "ENoEntry"))] (watched 7)
      = Some s' ∧
    changes_of 7 (trace s') = replicate 3 [VString "/a/"] ∧
    _pendingChanges s' = ∅.
Proof.
  destruct (change_signals_are_immediate (watched 7) 1 (λ _, false) 7
              [Unlink "/a/x" None;
               Mkdir "/a/d" None (inr (mkNativeStats false 5 0));
               Unlink "/a/z" (Some (mkNativeError "ENoEntry"))] eq_refl)
    as ((s' & Hs & _ & Hsame & Hp & _) & _).
  exists s'. split; [exact Hs|]. split; [|exact Hp].
  apply (Hsame [VString "/a/"]). by repeat constructor.
Defined.

(** C1 as stated fails: two writes to the same existing file, with no time
    passing in between, send two signals for its path, and the listener is
    invoked twice for that path. *)
Lemma two_signals_two_invocations :
  ∃ s',
    perform_all 1 (λ _, false)
      [WriteFile "/a/b.txt" "one" (mkOptions None)
         (inr (mkNativeStats true 5 2)) (inr (mkNativeStats true 6 3));
       WriteFile "/a/b.txt" "two" (mkOptions None)
         (inr (mkNativeStats true 6 3)) (inr (mkNativeStats true 7 3))]
      (watched 7) = Some s' ∧
    changes_of 7 (trace s') =
      [[VString "/a/b.txt"; VStats (mkStats true 6 3)];
       [VString "/a/b.txt"; VStats (mkStats true 7 3)]] ∧
    _pendingChanges s' = ∅.
Proof.
  destruct (perform_all_changes 1 (λ _, false) 7
              [WriteFile "/a/b.txt" "one" (mkOptions None)
                 (inr (mkNativeStats true 5 2)) (inr (mkNativeStats true 6 3));
               WriteFile "/a/b.txt" "two" (mkOptions None)
                 (inr (mkNativeStats true 6 3)) (inr (mkNativeStats true 7 3))]
              (watched 7) eq_refl) as (s' & Hs & Ht & _ & _ & Hp).
  exists s'. split; [exact Hs|]. by split.
Qed.

(** ** readdir *)

Lemma length_array_set a i v :
  length (array_set a i v) = (length a `max` S i)%nat.
Proof.
  unfold array_set. case_decide.
  - rewrite length_insert. lia.
  - rewrite !length_app, length_replicate. cbn. lia.
Qed.

Lemma lookup_array_set_eq a i v : array_set a i v !! i = Some v.
Proof.
  unfold array_set. case_decide.
  - by apply list_lookup_insert_eq.
  - rewrite lookup_app_r by lia. rewrite lookup_app_r; rewrite length_replicate; [|lia].
    by replace (i - length a - (i - length a))%nat with 0%nat by lia.
Qed.

Lemma lookup_array_set_ne a i j v x :
  i ≠ j → a !! j = Some x → array_set a i v !! j = Some x.
Proof.
  intros Hne Hj. unfold array_set. case_decide.
  - by rewrite list_lookup_insert_ne.
  - by apply lookup_app_l_Some.
Qed.

Section Readdir.

Context (path : string) (id : nat) (throws : list value → bool)
  (contents : list string) (out : nat → native_error + native_stats)
  (env c0 : nat).

Local Abbreviation cb := (KUser id throws).
Local Abbreviation N := (length contents).

Local Abbreviation entry := (readdir_entry path env contents cb).
Local Abbreviation listing := (readdir_listing contents).
Local Abbreviation slots_filled := (slots_filled contents out).

Lemma forEach_run rest : ∀ idx s,
  ∃ s', readdir_forEach path env contents cb idx rest s = (Ret tt, s') ∧
    trace s' = trace s ++ readdir_requests path (next_call s) rest ∧
    readdir_envs s' = readdir_envs s ∧
    (∀ j val, rest !! j = Some val →
       pending s' !! (next_call s + j)%nat = Some (entry (idx + j) val)) ∧
    (∀ k, (k < next_call s)%nat → pending s' !! k = pending s !! k).
Proof.
  induction rest as [|val rest IH]; intros idx s; cbn [readdir_forEach].
  - exists s. unfold readdir_requests. cbn. rewrite app_nil_r. done.
  - unfold bind, stat, fs_call. cbn [fst snd].
    edestruct IH as (s' & -> & Ht & He & Hp & Hk).
    exists s'. split; [done|].
    destruct s as [cbk tmo pnd fh rfe rde ne pe nc tr]. js_norm. cbn in *.
    rewrite Ht, He. split; [|split; [done|split]].
    + unfold readdir_requests. rewrite <- app_assoc. cbn. f_equal.
      rewrite Nat.add_0_r. f_equal. apply imap_ext. intros j x _. cbn.
      f_equal. lia.
    + intros [|j] val' Hj; cbn in Hj.
      * injection Hj as ->. rewrite Nat.add_0_r, Hk by lia.
        rewrite lookup_insert_eq. unfold readdir_entry. by rewrite Nat.add_0_r.
      * replace (nc + S j)%nat with (S (nc + j)) by lia.
        rewrite (Hp j val' Hj). unfold readdir_entry. do 4 f_equal. lia.
    + intros k Hlt. rewrite Hk by lia. by rewrite lookup_insert_ne by lia.
Qed.

(** One entry's stat completes. *)
Lemma entry_completes s i val cnt a :
  pending s !! (c0 + i)%nat = Some (entry i val) →
  readdir_envs s !! env = Some (mkRD cnt a) →
  let a' := array_set a i (slot (out i)) in
  ∃ s', complete (c0 + i) (RStat (out i)) s = Some s' ∧
    readdir_envs s' !! env = Some (mkRD (cnt - 1) a') ∧
    (∀ k, k ≠ (c0 + i)%nat → pending s' !! k = pending s !! k) ∧
    trace s' = trace s ++
      (if cnt - 1 <=? 0
       then [ECallback id (listing a')] ++ uncaught id throws (listing a')
       else []).
Proof.
  intros Hp He a'. destruct s; cbn in Hp, He.
  erewrite complete_Some; [|cbn; exact Hp | reflexivity].
  rewrite resume_D_stat. cbn [apply]. js_norm. rewrite He. js_norm.
  rewrite js_or_stat_args. fold a'. unfold uncaught, readdir_listing.
  destruct (cnt - 1 <=? 0); js_norm; [destruct (throws _)|]; js_norm;
    (eexists; split; [reflexivity|]); js_norm;
    (split; [done|]); (split; [by intros k Hk; rewrite lookup_delete_ne|]);
    by rewrite <- ?app_assoc, ?app_nil_r.
Qed.

Lemma slots_filled_set D a i :
  (i < N)%nat → slots_filled D a →
  slots_filled (i :: D) (array_set a i (slot (out i))).
Proof.
  intros Hi [Hlen Hslots]. split.
  - rewrite length_array_set. lia.
  - intros j [->|Hj]%elem_of_cons; [apply lookup_array_set_eq|].
    destruct (decide (i = j)) as [->|Hne]; [apply lookup_array_set_eq|].
    apply lookup_array_set_ne; auto.
Qed.

Lemma slots_filled_all a :
  slots_filled (seq 0 N) a → a = slot ∘ out <$> seq 0 N.
Proof.
  intros [Hlen Hslots]. apply list_eq. intros i.
  rewrite list_lookup_fmap. destruct (decide (i < N)%nat) as [Hi|Hi].
  - rewrite lookup_seq_lt by done. cbn. apply Hslots, elem_of_seq. lia.
  - rewrite lookup_seq_ge by lia. cbn. apply lookup_ge_None. lia.
Qed.

Lemma schedule_completes sched : ∀ s D a,
  NoDup sched → sched ≠ [] →
  (∀ i, i ∈ sched → (i < N)%nat ∧
     ∃ val, pending s !! (c0 + i)%nat = Some (entry i val)) →
  readdir_envs s !! env = Some (mkRD (Z.of_nat (length sched)) a) →
  slots_filled D a →
  ∃ s' a',
    completes ((λ i, ((c0 + i)%nat, RStat (out i))) <$> sched) s = Some s' ∧
    trace s' = trace s ++
      [ECallback id (listing a')] ++ uncaught id throws (listing a') ∧
    slots_filled (sched ++ D) a'.
Proof.
  induction sched as [|i sched IH]; intros s D a Hnd Hne Hsched He Hs; [done|].
  apply NoDup_cons in Hnd as [Hi Hnd].
  destruct (Hsched i) as (HiN & val & Hp); [by left|].
  destruct (entry_completes s i val _ a Hp He) as (s1 & Hs1 & He1 & Hp1 & Ht1).
  cbn [fmap list_fmap completes]. rewrite Hs1.
  replace (Z.of_nat (length (i :: sched)) - 1) with (Z.of_nat (length sched))
    in * by (cbn [length]; lia).
  destruct sched as [|j sched].
  - cbn in Ht1. eexists s1, _. split; [done|]. split; [exact Ht1|].
    by apply slots_filled_set.
  - destruct (Z.leb_spec (Z.of_nat (length (j :: sched))) 0) as [Hlen|_];
      [cbn in Hlen; lia|].
    rewrite app_nil_r in Ht1.
    destruct (IH s1 (i :: D) (array_set a i (slot (out i))))
      as (s' & a' & Hs' & Ht' & Hf'); [done | done | | done | |].
    { intros k Hk. destruct (Hsched k) as (HkN & valk & Hpk); [by right|].
      split; [done|]. exists valk. rewrite Hp1; [done|].
      intros E. assert (k = i) as -> by lia. done. }
    { by apply slots_filled_set. }
    exists s', a'. split; [exact Hs'|]. split; [by rewrite Ht', Ht1|].
    destruct Hf' as [Hlen Hslots]. split; [done|].
    intros k Hk. apply Hslots. rewrite <- Permutation_middle. exact Hk.
Qed.

End Readdir.

Lemma callbacks_of_readdir_requests id path c contents :
  callbacks_of id (readdir_requests path c contents) = [].
Proof.
  unfold readdir_requests. generalize c.
  induction contents as [|val contents IH]; intros c'; [done|].
  cbn. rewrite <- (IH (S c')). unfold callbacks_of. f_equal.
  apply imap_ext. intros j x _. cbn. f_equal. lia.
Qed.

(** C2: when the enumeration succeeds with N >= 0 names and the N stat
    calls complete in any order, [readdir] invokes its callback exactly
    once, after the last completion (at the enumeration itself when N = 0),
    with a null error, the names in their order and an array of length N
    whose slot i is the outcome of the stat of name i: its stats, or its
    translated error, which does not fail the call. *)
Theorem readdir_order_preserved (s : State) (path : string) (id : nat)
    (throws : list value → bool) (contents : list string)
    (out : nat → native_error + native_stats) (sched : list nat) :
  sched ≡ₚ seq 0 (length contents) →
  let c := next_call s in
  let result := [VNull; VArray (VString <$> contents);
                 VArray (slot ∘ out <$> seq 0 (length contents))] in
  ∃ s' new,
    completes ((c, RReaddir (inr contents)) ::
               ((λ i, ((S c + i)%nat, RStat (out i))) <$> sched))
      (run (readdir path (KUser id throws)) s) = Some s' ∧
    trace s' = trace s ++ new ∧
    new = [EDriver c (ReqReaddir path)] ++
          readdir_requests path (S c) contents ++
          [ECallback id result] ++ uncaught id throws result ∧
    callbacks_of id new = [result].
Proof.
  intros Hperm c result.
  assert (∀ new, new = [EDriver c (ReqReaddir path)] ++
            readdir_requests path (S c) contents ++
            [ECallback id result] ++ uncaught id throws result →
          callbacks_of id new = [result]) as Hcalls.
  { intros new ->.
    rewrite !callbacks_of_app, callbacks_of_readdir_requests,
      callbacks_of_uncaught.
    cbn. by rewrite decide_True. }
  cut (∃ s', completes ((c, RReaddir (inr contents)) ::
               ((λ i, ((S c + i)%nat, RStat (out i))) <$> sched))
               (run (readdir path (KUser id throws)) s) = Some s' ∧
             trace s' = trace s ++ [EDriver c (ReqReaddir path)] ++
               readdir_requests path (S c) contents ++
               [ECallback id result] ++ uncaught id throws result).
  { intros (s' & Hs & Ht). eexists s', _. eauto. }
  clear Hcalls. subst c result. cbn [completes].
  destruct (decide (contents = [])) as [->|Hne].
  - apply Permutation_nil_r in Hperm as ->.
    destruct s; unfold readdir, uncaught; js_step.
    change (Z.of_nat (length []) =? 0) with true. js_step.
    destruct (throws _); js_done.
  - assert (length contents ≠ 0%nat) as HN by (by destruct contents).
    destruct s as [cbk tmo pnd fh rfe rde ne pe nc tr]. unfold readdir. js_step.
    destruct (Z.eqb_spec (Z.of_nat (length contents)) 0) as [|_]; [lia|].
    js_norm.
    edestruct (forEach_run path id throws contents ne contents 0%nat)
      as (s2 & -> & Ht2 & He2 & Hp2 & _).
    js_norm. cbn [next_call trace readdir_envs] in *.
    destruct (schedule_completes path id throws contents out ne
                (S nc) sched s2 [] [])
      as (s' & a' & Hs' & Ht' & Hfilled).
    + rewrite Hperm. apply NoDup_seq.
    + intros ->. apply Permutation_nil_l in Hperm.
      by destruct contents.
    + intros i Hi. rewrite Hperm in Hi. apply elem_of_seq in Hi.
      split; [lia|].
      destruct (lookup_lt_is_Some_2 contents i) as [val Hval]; [lia|].
      exists val. by rewrite (Hp2 i val Hval).
    + rewrite He2, lookup_insert_eq, Hperm, length_seq. done.
    + split; [cbn; lia | by intros i ?%elem_of_nil].
    + exists s'. rewrite Hs'. split; [done|].
      assert (a' = slot ∘ out <$> seq 0 (length contents)) as <-.
      { apply slots_filled_all. destruct Hfilled as [Hlen Hslots].
        split; [done|]. intros i Hi. apply Hslots.
        by rewrite app_nil_r, Hperm. }
      rewrite Ht', Ht2. unfold readdir_listing. by rewrite <- !app_assoc.
Qed.


Lemma readdir_order_preserved_witness :
  ∃ s',
    completes [(0%nat, RReaddir (inr ["x"; "y"; "z"]));
               (3%nat, RStat (inl (mkNativeError "EIO")));
               (1%nat, RStat (inl (mkNativeError "ENoEntry")));
               (2%nat, RStat (inr (mkNativeStats true 5 2)))]
      (run (readdir "/a" (KUser 1 (λ _, false))) initial) = Some s' ∧
    callbacks_of 1 (trace s') =
      [[VNull; VArray [VString "x"; VString "y"; VString "z"];
        VArray [VError NOT_FOUND; VStats (mkStats true 5 2); VError UNKNOWN]]].
Proof.
  destruct (readdir_order_preserved initial "/a" 1 (λ _, false)
              ["x"; "y"; "z"]
              (λ i, match i with
                    | 0%nat => inl (mkNativeError "ENoEntry")
                    | 1%nat => inr (mkNativeStats true 5 2)
                    | _ => inl (mkNativeError "EIO")
                    end)
              [2; 0; 1]%nat (Permutation_cons_append [0; 1]%nat 2%nat))
    as (s' & new & Hs & Ht & _ & Hc).
  exists s'. split; [exact Hs|]. rewrite Ht. exact Hc.
Defined.

(** * Further properties *)

(** ** More on the parent path *)

Lemma append_assoc (a b c : string) : (a +:+ b) +:+ c = a +:+ (b +:+ c).
Proof.
  induction a as [|x a IH]; [done|].
  change (String x a +:+ b) with (String x (a +:+ b)).
  change (String x (a +:+ b) +:+ c) with (String x ((a +:+ b) +:+ c)).
  change (String x a +:+ (b +:+ c)) with (String x (a +:+ (b +:+ c))).
  by rewrite IH.
Qed.

Lemma length_append (a b : string) :
  String.length (a +:+ b) = (String.length a + String.length b)%nat.
Proof.
  induction a as [|x a IH]; [done|].
  change (String x a +:+ b) with (String x (a +:+ b)). cbn. by rewrite IH.
Qed.

Lemma through_last_slash_prefix s :
  ∃ rest, s = through_last_slash s +:+ rest.
Proof.
  induction s as [|a s [rest IH]]; [by exists ""|]. cbn.
  destruct (has_slash s).
  - exists rest. change (String a ?x +:+ rest) with (String a (x +:+ rest)).
    by rewrite <- IH.
  - destruct (Ascii.eqb a "/"); [by exists s | by eexists].
Qed.

Lemma drop_last_prefix s : ∃ rest, s = drop_last s +:+ rest.
Proof.
  induction s as [|a s [rest IH]]; [by exists ""|].
  destruct s as [|b s]; [by eexists|].
  change (drop_last (String a (String b s)))
    with (String a (drop_last (String b s))).
  exists rest.
  change (String a ?x +:+ rest) with (String a (x +:+ rest)).
  by rewrite <- IH.
Qed.

Lemma through_last_slash_shape s :
  through_last_slash s = "" ∨ ends_with_slash (through_last_slash s) = true.
Proof.
  destruct (has_slash s) eqn:Hs.
  - right. by apply through_last_slash_ends.
  - left. by apply through_last_slash_none.
Qed.

(** X2: the parent is a prefix of the path and is empty or ends with a
    slash; for a path other than [""] and ["/"] it is strictly shorter, so
    walking up from a path ends. *)
Theorem parentPath_is_directory_prefix (path : string) :
  (∃ rest, path = _parentPath path +:+ rest) ∧
  (_parentPath path = "" ∨ ends_with_slash (_parentPath path) = true) ∧
  (path ≠ "" → path ≠ "/" →
   (String.length (_parentPath path) < String.length path)%nat).
Proof.
  destruct (decide (path = "/")) as [->|Hroot].
  { split; [by exists ""|]. split; [by right|done]. }
  rewrite parentPath_spec by done. unfold parent_spec, strip_trailing_slash.
  destruct (ends_with_slash path) eqn:He.
  - destruct (drop_last_prefix path) as [r1 H1].
    destruct (through_last_slash_prefix (drop_last path)) as [r2 H2].
    split; [|split; [apply through_last_slash_shape|]].
    + exists (r2 +:+ r1). by rewrite <- append_assoc, <- H2.
    + intros Hne _. apply (f_equal String.length) in H2.
      rewrite length_append in H2.
      pose proof (length_drop_last path Hne). lia.
  - destruct (through_last_slash_prefix path) as [r H].
    split; [by exists r|]. split; [apply through_last_slash_shape|].
    intros Hne _. 
    assert (r ≠ "") as Hr.
    { intros ->. destruct (through_last_slash_shape path) as [E|E].
      - rewrite E in H. done.
      - rewrite H in He at 1. 
        assert (through_last_slash path +:+ "" = through_last_slash path) as Ea.
        { clear. induction (through_last_slash path) as [|a s IH]; [done|].
          change (String a s +:+ "") with (String a (s +:+ "")). by rewrite IH. }
        rewrite Ea in He. congruence. }
    apply (f_equal String.length) in H. rewrite length_append in H.
    destruct r; [done|]. cbn in H. lia.
Qed.

Lemma ends_with_slash_append dir name :
  name ≠ "" → ends_with_slash (dir +:+ name) = ends_with_slash name.
Proof.
  intros Hne. induction dir as [|a dir IH]; [done|].
  change (String a dir +:+ name) with (String a (dir +:+ name)).
  cbn. destruct (dir +:+ name) eqn:E; [|exact IH].
  destruct dir; [done|discriminate].
Qed.

Lemma has_slash_no_trailing name :
  has_slash name = false → ends_with_slash name = false.
Proof.
  intros Hs. destruct (ends_with_slash name) eqn:He; [|done].
  apply ends_with_slash_has_slash in He. congruence.
Qed.

Lemma has_slash_append dir name :
  has_slash (dir +:+ name) = has_slash dir || has_slash name.
Proof.
  induction dir as [|a dir IH]; [done|].
  change (String a dir +:+ name) with (String a (dir +:+ name)).
  cbn. by rewrite IH, orb_assoc.
Qed.

Lemma through_last_slash_append dir name :
  dir = "" ∨ ends_with_slash dir = true → has_slash name = false →
  through_last_slash (dir +:+ name) = dir.
Proof.
  intros Hdir Hname. induction dir as [|a dir IH].
  - by apply through_last_slash_none.
  - change (String a dir +:+ name) with (String a (dir +:+ name)).
    destruct Hdir as [|Hdir]; [done|]. cbn.
    rewrite has_slash_append, Hname, orb_false_r.
    destruct dir as [|b dir].
    + cbn in *. by rewrite Hdir.
    + rewrite (ends_with_slash_has_slash (String b dir)) by exact Hdir.
      f_equal. apply IH. by right.
Qed.

(** X3: the parent of an entry of a directory is the directory, with or
    without a slash after the entry's name: for [dir] empty or ending with
    a slash and a non-empty [name] without slash. *)
Theorem parentPath_of_entry (dir name : string) :
  dir = "" ∨ ends_with_slash dir = true →
  name ≠ "" → has_slash name = false →
  _parentPath (dir +:+ name) = dir ∧
  _parentPath (dir +:+ name +:+ "/") = dir.
Proof.
  intros Hdir Hne Hname.
  assert (ends_with_slash (dir +:+ name) = false) as He.
  { rewrite ends_with_slash_append by done. by apply has_slash_no_trailing. }
  assert (dir +:+ name ≠ "") as Hne'.
  { destruct dir; [done|discriminate]. }
  split.
  - rewrite parentPath_spec by (intros E; by rewrite E in He).
    unfold parent_spec, strip_trailing_slash. rewrite He.
    by apply through_last_slash_append.
  - rewrite <- append_assoc. rewrite parentPath_spec.
    + unfold parent_spec, strip_trailing_slash.
      rewrite ends_with_slash_app, drop_last_app.
      by apply through_last_slash_append.
    + intros E. apply (f_equal String.length) in E.
      rewrite length_append in E. cbn in E.
      destruct (dir +:+ name); [done|cbn in E; lia].
Qed.

Lemma parentPath_of_entry_witness :
  _parentPath ("/a/" +:+ "b.txt") = "/a/" ∧
  _parentPath ("/a/" +:+ "b.txt" +:+ "/") = "/a/".
Proof. apply parentPath_of_entry; [by right | done | done]. Defined.

Lemma parentPath_is_directory_prefix_witness :
  (String.length (_parentPath "/a/b/") < String.length "/a/b/")%nat.
Proof. by apply (parentPath_is_directory_prefix "/a/b/"). Defined.

(** ** Error translation *)

(** X1: [_mapError] gives [null] exactly when there is no error; an error
    named ENoEntry becomes NotFound, one named EExists AlreadyExists, and
    every other one Unknown, so the result is truthy exactly when there is
    an error. *)
Theorem mapError_classifies (err : option native_error) :
  (_mapError err = VNull ↔ err = None) ∧
  (∀ e, err = Some e →
     (_mapError err = VError NOT_FOUND ↔ name e = "ENoEntry") ∧
     (_mapError err = VError ALREADY_EXISTS ↔ name e = "EExists") ∧
     (_mapError err = VError UNKNOWN ↔
        name e ≠ "ENoEntry" ∧ name e ≠ "EExists")) ∧
  truthy (_mapError err) = bool_decide (err ≠ None).
Proof.
  destruct err as [e|]; [|by repeat split; intros; try congruence].
  split; [split; [intros H; by apply mapError_not_null in H | done]|].
  split; [|by rewrite truthy_mapError].
  intros ? [= <-]. unfold _mapError.
  destruct (String.eqb_spec (name e) "ENoEntry") as [E1|E1];
    [rewrite E1; by repeat split; try intros [? ?]|].
  destruct (String.eqb_spec (name e) "EExists") as [E2|E2];
    by repeat split; try intros [? ?].
Qed.

Lemma mapError_classifies_witness :
  _mapError (Some (mkNativeError "EExists")) = VError ALREADY_EXISTS.
Proof.
  by apply (mapError_classifies (Some (mkNativeError "EExists"))
              ) with (e := mkNativeError "EExists").
Defined.

(** ** stat *)

(** X4: [stat] makes one driver call and calls back once when it
    completes: with the translated error alone when it failed, with [null]
    and a stats object holding the driver's isFile, mtime and size when it
    succeeded. *)
Theorem stat_translates (s : State) (path : string) (id : nat)
    (throws : list value → bool) :
  let c := next_call s in
  let s1 := run (stat path (KUser id throws)) s in
  trace s1 = trace s ++ [EDriver c (ReqStat path)] ∧
  (∀ e, ∃ s', complete c (RStat (inl e)) s1 = Some s' ∧
      trace s' = trace s1 ++ [ECallback id [_mapError (Some e)]] ++
                 uncaught id throws [_mapError (Some e)]) ∧
  (∀ st, ∃ s', complete c (RStat (inr st)) s1 = Some s' ∧
      trace s' = trace s1 ++
        [ECallback id
           [VNull; VStats (mkStats (n_isFile st) (n_mtime st) (n_size st))]] ++
        uncaught id throws
          [VNull; VStats (mkStats (n_isFile st) (n_mtime st) (n_size st))]).
Proof.
  intros c s1. subst c s1. destruct s as [cbk tmo pnd fh rfe rde ne pe nc tr].
  unfold uncaught. js_step. repeat split.
  - intros e. js_step. destruct (throws _); js_step;
      (eexists; split; [reflexivity|]); js_step; by rewrite <- ?app_assoc.
  - intros st. js_step. destruct (throws _); js_step;
      (eexists; split; [reflexivity|]); js_step; by rewrite <- ?app_assoc.
Qed.

(** ** readdir: failure of the enumeration *)

(** X5: when the enumeration itself fails, [readdir] calls back once with
    the translated error alone, and no stat call is made or left
    outstanding. *)
Theorem readdir_enumeration_failure (s : State) (path : string) (id : nat)
    (throws : list value → bool) (e : native_error) :
  ∃ s',
    complete (next_call s) (RReaddir (inl e))
      (run (readdir path (KUser id throws)) s) = Some s' ∧
    trace s' = trace s ++
      [EDriver (next_call s) (ReqReaddir path);
       ECallback id [_mapError (Some e)]] ++
      uncaught id throws [_mapError (Some e)] ∧
    pending s' = delete (next_call s)
                   (<[next_call s := (ReqReaddir path,
                                      D_readdir path (KUser id throws))]>
                      (pending s)).
Proof.
  destruct s as [cbk tmo pnd fh rfe rde ne pe nc tr].
  unfold readdir, uncaught. js_step.
  destruct (throws _); js_step; (eexists; split; [reflexivity|]); js_step;
    by rewrite <- ?app_assoc.
Qed.

(** ** readFile: both calls are made at once *)

(** X7: [readFile] makes the read call and then the stat call at once,
    before either completes, with fresh shared variables; the encoding
    passed to the driver is "utf8" when the option is absent or empty and
    the given one otherwise. *)
Theorem readFile_issues_both_calls (s : State) (path : string) (o : options)
    (k : cont) :
  let c := next_call s in
  let s1 := run (readFile path o k) s in
  trace s1 = trace s ++
    [EDriver c (ReqReadFile path (encoding_of o)); EDriver (S c) (ReqStat path)] ∧
  (∃ env, pending s1 !! c =
            Some (ReqReadFile path (encoding_of o), D_readFile env k) ∧
          pending s1 !! S c = Some (ReqStat path, D_stat (K_readFile_stat env k)) ∧
          readFile_envs s1 !! env = Some (mkRF false VUndefined VUndefined VUndefined)) ∧
  (encoding o = None ∨ encoding o = Some "" → encoding_of o = "utf8") ∧
  (∀ enc, encoding o = Some enc → enc ≠ "" → encoding_of o = enc).
Proof.
  intros c s1. subst c s1. destruct s as [cbk tmo pnd fh rfe rde ne pe nc tr].
  unfold readFile. js_step. split; [by rewrite <- app_assoc|].
  split; [exists ne; by js_step|].
  unfold encoding_of. split.
  - by intros [->| ->].
  - intros enc -> Hne. by destruct (String.eqb_spec enc "").
Qed.

Lemma readFile_issues_both_calls_witness :
  encoding_of (mkOptions (Some "")) = "utf8" ∧
  encoding_of (mkOptions (Some "binary")) = "binary".
Proof.
  split.
  - destruct (readFile_issues_both_calls initial "/a" (mkOptions (Some ""))
                (KUser 1 (λ _, false))) as (_ & _ & Hdefault & _).
    apply Hdefault. by right.
  - destruct (readFile_issues_both_calls initial "/a"
                (mkOptions (Some "binary")) (KUser 1 (λ _, false)))
      as (_ & _ & _ & Hgiven).
    by apply Hgiven.
Defined.

(** ** Before initWatchers *)

Section Unwatched.

Context (s : State) (path : string) (id : nat) (throws : list value → bool).
Context (Hnone : _changeCallback s = None).

Local Abbreviation c := (next_call s).
Local Abbreviation cb := (KUser id throws).

Lemma unlink_trace_unwatched r :
  ∃ s', complete c (RUnlink r) (run (unlink path cb) s) = Some s' ∧
    trace s' = trace s ++
      [EDriver c (ReqUnlink path); ECallback id [_mapError r];
       EUncaught TypeError].
Proof.
  destruct s as [cbk tmo pnd fh rfe rde ne pe nc tr]. cbn in Hnone. subst cbk.
  unfold unlink. js_step. destruct (throws _); js_done.
Qed.

Lemma mkdir_trace_unwatched mode r :
  ∃ s', completes [(c, RMkdir None); (S c, RStat r)]
          (run (mkdir path mode cb) s) = Some s' ∧
    trace s' = trace s ++
      [EDriver c (ReqMkdir path (default 493 mode));
       EDriver (S c) (ReqStat path); ECallback id (err_stat r);
       EUncaught TypeError].
Proof.
  destruct s as [cbk tmo pnd fh rfe rde ne pe nc tr]. cbn in Hnone. subst cbk.
  unfold mkdir. js_step.
  destruct r; js_step; destruct (throws _); destruct mode; js_done.
Qed.

Lemma writeFile_trace_unwatched data o r0 r2 :
  ∃ s', completes [(c, RStat r0); (S c, RWriteFile None); (S (S c), RStat r2)]
          (run (writeFile path data o cb) s) = Some s' ∧
    trace s' = trace s ++
      [EDriver c (ReqStat path);
       EDriver (S c) (ReqWriteFile path data (encoding_of o));
       EDriver (S (S c)) (ReqStat path); ECallback id (err_stat r2);
       EUncaught TypeError].
Proof.
  destruct s as [cbk tmo pnd fh rfe rde ne pe nc tr]. cbn in Hnone. subst cbk.
  unfold writeFile. js_step.
  destruct r0; js_step; destruct r2; js_step; destruct (throws _); js_done.
Qed.

End Unwatched.

(** X9: while no listener is registered, [unlink], a [mkdir] that created
    the directory and a [writeFile] that wrote the file still invoke the
    caller's callback, and then fail with a TypeError that nobody catches;
    an exception of the callback is lost to it. *)
Theorem signal_without_listener (s : State) (path : string) (id : nat)
    (throws : list value → bool) :
  _changeCallback s = None →
  let c := next_call s in
  (∀ r, ∃ s',
      complete c (RUnlink r) (run (unlink path (KUser id throws)) s) = Some s' ∧
      trace s' = trace s ++
        [EDriver c (ReqUnlink path); ECallback id [_mapError r];
         EUncaught TypeError]) ∧
  (∀ mode r, ∃ s',
      completes [(c, RMkdir None); (S c, RStat r)]
        (run (mkdir path mode (KUser id throws)) s) = Some s' ∧
      trace s' = trace s ++
        [EDriver c (ReqMkdir path (default 493 mode));
         EDriver (S c) (ReqStat path); ECallback id (err_stat r);
         EUncaught TypeError]) ∧
  (∀ data o r0 r2, ∃ s',
      completes [(c, RStat r0); (S c, RWriteFile None); (S (S c), RStat r2)]
        (run (writeFile path data o (KUser id throws)) s) = Some s' ∧
      trace s' = trace s ++
        [EDriver c (ReqStat path);
         EDriver (S c) (ReqWriteFile path data (encoding_of o));
         EDriver (S (S c)) (ReqStat path); ECallback id (err_stat r2);
         EUncaught TypeError]).
Proof.
  intros Hl c. repeat split.
  - intros r. by apply unlink_trace_unwatched.
  - intros mode r. by apply mkdir_trace_unwatched.
  - intros data o r0 r2. by apply writeFile_trace_unwatched.
Qed.

Lemma signal_without_listener_witness :
  ∃ s',
    complete 0 (RUnlink None)
      (run (unlink "/a/b.txt" (KUser 1 (λ _, true))) initial) = Some s' ∧
    trace s' = [EDriver 0 (ReqUnlink "/a/b.txt"); ECallback 1 [VNull];
                EUncaught TypeError].
Proof.
  destruct (signal_without_listener initial "/a/b.txt" 1 (λ _, true) eq_refl)
    as (Hu & _).
  destruct (Hu None) as (s' & Hs & Ht). exists s'. by split.
Defined.

(** ** initWatchers *)

(** X10: after a second [initWatchers] the change signals of the
    operations go to the new listener only, while a focus of the window
    still sends a wholesale change to every listener ever registered, in
    the order of registration; no completion of a driver call changes the
    registered listener. *)
Theorem initWatchers_replaces_listener (s : State) (a b : nat) (path : string)
    (id : nat) (throws : list value → bool) (r : option native_error) :
  a ≠ b →
  let s2 := run (initWatchers b) (run (initWatchers a) s) in
  (∃ s' new,
      complete (next_call s2) (RUnlink r)
        (run (unlink path (KUser id throws)) s2) = Some s' ∧
      trace s' = trace s ++ new ∧
      changes_of b new = [[VString (_parentPath path)]] ∧
      changes_of a new = []) ∧
  trace (focus s2) =
    trace s ++ ((λ l, EChange l [VNull]) <$> focus_handlers s) ++
    [EChange a [VNull]; EChange b [VNull]] ∧
  (∀ sched s', completes sched s2 = Some s' → _changeCallback s' = Some b).
Proof.
  intros Hab s2. split; [|split].
  - destruct (unlink_trace s2 path id throws b r eq_refl) as (s' & Hs & Ht).
    eexists s', _. split; [exact Hs|]. split; [exact Ht|].
    rewrite !changes_of_app, !changes_of_uncaught. cbn.
    rewrite decide_True by done. by rewrite decide_False by done.
  - subst s2. destruct s as [cbk tmo pnd fh rfe rde ne pe nc tr].
    unfold focus, initWatchers. js_step. by rewrite !fmap_app, <- ?app_assoc.
  - intros sched s' (Hc & _)%completes_kept. by rewrite Hc.
Qed.

Lemma initWatchers_replaces_listener_witness :
  trace (focus (run (initWatchers 8) (run (initWatchers 7) initial))) =
    [EChange 7 [VNull]; EChange 8 [VNull]].
Proof.
  by apply (initWatchers_replaces_listener initial 7 8 "/a/b.txt" 1 (λ _, false)
              None).
Defined.

(** ** rename and moveToTrash *)

(** X11: [rename] hands the move to the shell and touches nothing else;
    when the shell answers, the caller's callback is invoked once with the
    translated error followed by the other arguments unchanged, the change
    listener is not invoked and no driver call is made. *)
Theorem rename_never_signals (sh : Shell) (oldPath newPath : string) (id : nat)
    (throws : list value → bool) (err : option native_error)
    (rest : list value) :
  let c := shell_next sh in
  let sh1 := rename oldPath newPath (KUser id throws) sh in
  module_state sh1 = module_state sh ∧
  shell_pending sh1 !! c =
    Some (ReqMv oldPath newPath, A_wrap (KUser id throws)) ∧
  ∃ sh2, shell_complete c err rest sh1 = Some sh2 ∧
    trace (module_state sh2) =
      trace (module_state sh) ++ [ECallback id (_mapError err :: rest)] ++
      uncaught id throws (_mapError err :: rest) ∧
    pending (module_state sh2) = pending (module_state sh) ∧
    shell_pending sh2 !! c = None.
Proof.
  intros c sh1. subst c sh1. destruct sh as [s sp sn].
  destruct s as [cbk tmo pnd fh rfe rde ne pe nc tr].
  unfold rename, shell_call, shell_complete, uncaught.
  cbn [module_state shell_pending shell_next].
  rewrite lookup_insert_eq. split; [done|]. split; [done|].
  unfold shell_resume, _wrap. js_step.
  destruct (throws _); js_step; eexists;
    (split; [reflexivity|]); cbn [module_state shell_pending]; js_step;
    rewrite lookup_delete_eq, <- ?app_assoc; done.
Qed.

(** X12: [moveToTrash] invokes the caller's callback with the translated
    error alone and then sends the change signal of the parent directory,
    whether the shell reported an error or not and also when the callback
    throws. *)
Theorem moveToTrash_signals_parent (sh : Shell) (path : string) (id : nat)
    (throws : list value → bool) (l : nat) (err : option native_error)
    (rest : list value) :
  _changeCallback (module_state sh) = Some l →
  let c := shell_next sh in
  ∃ sh2,
    shell_complete c err rest (moveToTrash path (KUser id throws) sh)
      = Some sh2 ∧
    trace (module_state sh2) =
      trace (module_state sh) ++
      [ECallback id [_mapError err]; EChange l [VString (_parentPath path)]] ++
      uncaught id throws [_mapError err] ∧
    pending (module_state sh2) = pending (module_state sh).
Proof.
  intros Hl c. subst c. destruct sh as [s sp sn].
  destruct s as [cbk tmo pnd fh rfe rde ne pe nc tr]. cbn in Hl. subst cbk.
  unfold moveToTrash, shell_call, shell_complete, uncaught.
  cbn [module_state shell_pending shell_next].
  rewrite lookup_insert_eq. unfold shell_resume. js_step.
  destruct (throws _); js_step; eexists;
    (split; [reflexivity|]); cbn [module_state]; js_step;
    rewrite <- ?app_assoc; done.
Qed.

Lemma moveToTrash_signals_parent_witness :
  ∃ sh2,
    shell_complete 0 (Some (mkNativeError "ENoEntry")) []
      (moveToTrash "/a/b.txt" (KUser 1 (λ _, false)) (mkShell (watched 7) ∅ 0))
      = Some sh2 ∧
    trace (module_state sh2) =
      [ECallback 1 [VError NOT_FOUND]; EChange 7 [VString "/a/"]].
Proof.
  destruct (moveToTrash_signals_parent (mkShell (watched 7) ∅ 0) "/a/b.txt" 1
              (λ _, false) 7 (Some (mkNativeError "ENoEntry")) [] eq_refl)
    as (sh2 & Hs & Ht & _).
  exists sh2. by split.
Defined.

(** ** A stat that fails after the change was made *)

(** X13: when the stat that follows a successful write or create fails,
    the caller is told of the failure and the listener is signalled all the
    same: for the path with undefined stats when the file existed, for the
    parent directory when it did not, and for the parent directory after a
    [mkdir]. *)
Theorem change_reported_failed_still_signalled (s : State) (path : string)
    (id : nat) (throws : list value → bool) (l : nat) (e : native_error) :
  _changeCallback s = Some l →
  let c := next_call s in
  (∀ data o st0, ∃ s' new,
      completes [(c, RStat (inr st0)); (S c, RWriteFile None);
                 (S (S c), RStat (inl e))]
        (run (writeFile path data o (KUser id throws)) s) = Some s' ∧
      trace s' = trace s ++ new ∧
      callbacks_of id new = [[_mapError (Some e); VUndefined]] ∧
      changes_of l new = [[VString path; VUndefined]]) ∧
  (∀ data o e0, ∃ s' new,
      completes [(c, RStat (inl e0)); (S c, RWriteFile None);
                 (S (S c), RStat (inl e))]
        (run (writeFile path data o (KUser id throws)) s) = Some s' ∧
      trace s' = trace s ++ new ∧
      callbacks_of id new = [[_mapError (Some e); VUndefined]] ∧
      changes_of l new = [[VString (_parentPath path)]]) ∧
  (∀ mode, ∃ s' new,
      completes [(c, RMkdir None); (S c, RStat (inl e))]
        (run (mkdir path mode (KUser id throws)) s) = Some s' ∧
      trace s' = trace s ++ new ∧
      callbacks_of id new = [[_mapError (Some e); VUndefined]] ∧
      changes_of l new = [[VString (_parentPath path)]]).
Proof.
  intros Hl c. repeat split.
  - intros data o st0.
    destruct (writeFile_trace_ok s path id throws l data o (inr st0) (inl e) Hl)
      as (s' & Hs & Ht).
    eexists s', _. split; [exact Hs|]. split; [exact Ht|].
    rewrite !callbacks_of_app, !changes_of_app, callbacks_of_uncaught,
      changes_of_uncaught.
    cbn. by rewrite !decide_True.
  - intros data o e0.
    destruct (writeFile_trace_ok s path id throws l data o (inl e0) (inl e) Hl)
      as (s' & Hs & Ht).
    eexists s', _. split; [exact Hs|]. split; [exact Ht|].
    rewrite !callbacks_of_app, !changes_of_app, callbacks_of_uncaught,
      changes_of_uncaught.
    cbn. by rewrite !decide_True.
  - intros mode.
    destruct (mkdir_trace_ok s path id throws l mode (inl e) Hl)
      as (s' & Hs & Ht).
    eexists s', _. split; [exact Hs|]. split; [exact Ht|].
    rewrite !callbacks_of_app, !changes_of_app, callbacks_of_uncaught,
      changes_of_uncaught.
    cbn. by rewrite !decide_True.
Qed.

Lemma change_reported_failed_still_signalled_witness :
  ∃ s',
    completes [(0%nat, RMkdir None);
               (1%nat, RStat (inl (mkNativeError "EIO")))]
      (run (mkdir "/a/d" (Some 448) (KUser 1 (λ _, false))) (watched 7))
      = Some s' ∧
    callbacks_of 1 (trace s') = [[VError UNKNOWN; VUndefined]] ∧
    changes_of 7 (trace s') = [[VString "/a/"]].
Proof.
  destruct (change_reported_failed_still_signalled (watched 7) "/a/d" 1
              (λ _, false) 7 (mkNativeError "EIO") eq_refl) as (_ & _ & Hm).
  destruct (Hm (Some 448)) as (s' & new & Hs & Ht & Hc & Hl).
  exists s'. split; [exact Hs|]. rewrite Ht. split; [exact Hc | exact Hl].
Defined.

(** ** Create, then modify *)

(** X14: a first [writeFile] to a path that does not exist signals the
    parent directory, and a second one to the same path, which now exists,
    signals the path itself with the stats read after that write; the
    caller is called back once per write. *)
Theorem create_then_modify (s : State) (path : string) (id : nat)
    (throws : list value → bool) (l : nat) (d1 d2 : string) (o1 o2 : options)
    (e0 : native_error) (st1 st2 : native_stats) :
  _changeCallback s = Some l →
  ∃ s',
    perform_all id throws
      [WriteFile path d1 o1 (inl e0) (inr st1);
       WriteFile path d2 o2 (inr st1) (inr st2)] s = Some s' ∧
    changes_of l (trace s') =
      changes_of l (trace s) ++
      [[VString (_parentPath path)];
       [VString path; VStats (fsStats_of st2)]] ∧
    callbacks_of id (trace s') =
      callbacks_of id (trace s) ++
      [[VNull; VStats (fsStats_of st1)]; [VNull; VStats (fsStats_of st2)]].
Proof.
  intros Hl. cbn [perform_all perform].
  destruct (writeFile_trace_ok s path id throws l d1 o1 (inl e0) (inr st1) Hl)
    as (s1 & Hs1 & Ht1).
  rewrite Hs1.
  assert (_changeCallback s1 = Some l) as Hl1.
  { apply completes_kept in Hs1 as (Hc & _). rewrite Hc.
    exact Hl. }
  destruct (writeFile_trace_ok s1 path id throws l d2 o2 (inr st1) (inr st2) Hl1)
    as (s2 & Hs2 & Ht2).
  rewrite Hs2. exists s2. split; [done|].
  rewrite Ht2, Ht1, !changes_of_app, !callbacks_of_app,
    !changes_of_uncaught, !callbacks_of_uncaught.
  cbn. rewrite !decide_True by done. by rewrite !app_nil_r, <- !app_assoc.
Qed.

Lemma create_then_modify_witness :
  ∃ s',
    perform_all 1 (λ _, false)
      [WriteFile "/a/b.txt" "one" (mkOptions None)
         (inl (mkNativeError "ENoEntry")) (inr (mkNativeStats true 5 3));
       WriteFile "/a/b.txt" "two" (mkOptions None)
         (inr (mkNativeStats true 5 3)) (inr (mkNativeStats true 6 3))]
      (watched 7) = Some s' ∧
    changes_of 7 (trace s') =
      [[VString "/a/"]; [VString "/a/b.txt"; VStats (mkStats true 6 3)]].
Proof.
  destruct (create_then_modify (watched 7) "/a/b.txt" 1 (λ _, false) 7
              "one" "two" (mkOptions None) (mkOptions None)
              (mkNativeError "ENoEntry") (mkNativeStats true 5 3)
              (mkNativeStats true 6 3) eq_refl) as (s' & Hs & Hc & _).
  exists s'. split; [exact Hs | exact Hc].
Defined.

(** ** The callback of the writing operations *)

Lemma err_stat_null r : arg 0 (err_stat r) = VNull ↔ succeeded r = true.
Proof.
  destruct r as [e|st]; cbn; [|done].
  split; [by intros H%mapError_not_null | done].
Qed.

(** X15: [unlink], [mkdir] and [writeFile] invoke the caller's callback
    exactly once for every answer of the driver, with or without a
    registered listener; [mkdir] and [writeFile] pass a null error exactly
    when the primitive call and the stat that follows both succeeded. *)
Theorem write_operations_call_back_once (s : State) (path : string) (id : nat)
    (throws : list value → bool) :
  let c := next_call s in
  (∀ r, ∃ s' new,
      complete c (RUnlink r) (run (unlink path (KUser id throws)) s) = Some s' ∧
      trace s' = trace s ++ new ∧
      callbacks_of id new = [[_mapError r]]) ∧
  (∀ mode rm r, ∃ s' new args,
      completes ((c, RMkdir rm) ::
                 match rm with None => [(S c, RStat r)] | Some _ => [] end)
        (run (mkdir path mode (KUser id throws)) s) = Some s' ∧
      trace s' = trace s ++ new ∧
      callbacks_of id new = [args] ∧
      (arg 0 args = VNull ↔ rm = None ∧ succeeded r = true)) ∧
  (∀ data o r0 rw r2, ∃ s' new args,
      completes ((c, RStat r0) :: (S c, RWriteFile rw) ::
                 match rw with None => [(S (S c), RStat r2)] | Some _ => [] end)
        (run (writeFile path data o (KUser id throws)) s) = Some s' ∧
      trace s' = trace s ++ new ∧
      callbacks_of id new = [args] ∧
      (arg 0 args = VNull ↔ rw = None ∧ succeeded r2 = true)).
Proof.
  intros c. subst c. repeat split.
  - intros r. destruct (_changeCallback s) as [l|] eqn:Hl.
    + destruct (unlink_trace s path id throws l r Hl) as (s' & Hs & Ht).
      eexists s', _. split; [exact Hs|]. split; [exact Ht|].
      rewrite callbacks_of_app, callbacks_of_uncaught. cbn.
      by rewrite decide_True.
    + destruct (unlink_trace_unwatched s path id throws Hl r) as (s' & Hs & Ht).
      eexists s', _. split; [exact Hs|]. split; [exact Ht|].
      cbn. by rewrite decide_True.
  - intros mode [e|] r.
    + destruct (mkdir_trace_fail s path id throws mode e) as (s' & Hs & Ht).
      eexists s', _, _. split; [cbn [completes]; by rewrite Hs|].
      split; [exact Ht|]. split.
      * rewrite callbacks_of_app, callbacks_of_uncaught. cbn.
        by rewrite decide_True.
      * split; [by intros H%mapError_not_null | by intros [? _]].
    + destruct (_changeCallback s) as [l|] eqn:Hl.
      * destruct (mkdir_trace_ok s path id throws l mode r Hl) as (s' & Hs & Ht).
        eexists s', _, _. split; [exact Hs|]. split; [exact Ht|]. split.
        -- rewrite callbacks_of_app, callbacks_of_uncaught. cbn.
           by rewrite decide_True.
        -- rewrite err_stat_null. split; [by split | by intros [_ ?]].
      * destruct (mkdir_trace_unwatched s path id throws Hl mode r)
          as (s' & Hs & Ht).
        eexists s', _, _. split; [exact Hs|]. split; [exact Ht|]. split.
        -- cbn. by rewrite decide_True.
        -- rewrite err_stat_null. split; [by split | by intros [_ ?]].
  - intros data o r0 [e|] r2.
    + destruct (writeFile_trace_fail s path id throws data o r0 e)
        as (s' & Hs & Ht).
      eexists s', _, _. split; [exact Hs|]. split; [exact Ht|]. split.
      * rewrite callbacks_of_app, callbacks_of_uncaught. cbn.
        by rewrite decide_True.
      * split; [by intros H%mapError_not_null | by intros [? _]].
    + destruct (_changeCallback s) as [l|] eqn:Hl.
      * destruct (writeFile_trace_ok s path id throws l data o r0 r2 Hl)
          as (s' & Hs & Ht).
        eexists s', _, _. split; [exact Hs|]. split; [exact Ht|]. split.
        -- rewrite callbacks_of_app, callbacks_of_uncaught. cbn.
           by rewrite decide_True.
        -- rewrite err_stat_null. split; [by split | by intros [_ ?]].
      * destruct (writeFile_trace_unwatched s path id throws Hl data o r0 r2)
          as (s' & Hs & Ht).
        eexists s', _, _. split; [exact Hs|]. split; [exact Ht|]. split.
        -- cbn. by rewrite decide_True.
        -- rewrite err_stat_null. split; [by split | by intros [_ ?]].
Qed.

(** ** readdir: waiting *)

Section ReaddirWaits.

Context (path : string) (id : nat) (throws : list value → bool)
  (contents : list string) (out : nat → native_error + native_stats)
  (env c0 : nat).

Local Abbreviation entry := (readdir_entry path env contents (KUser id throws)).

Lemma schedule_waits sched : ∀ s cnt a,
  NoDup sched →
  (∀ i, i ∈ sched → ∃ val, pending s !! (c0 + i)%nat = Some (entry i val)) →
  readdir_envs s !! env = Some (mkRD cnt a) →
  Z.of_nat (length sched) < cnt →
  ∃ s' a',
    completes ((λ i, ((c0 + i)%nat, RStat (out i))) <$> sched) s = Some s' ∧
    trace s' = trace s ∧
    readdir_envs s' !! env = Some (mkRD (cnt - Z.of_nat (length sched)) a') ∧
    ∀ k, (∀ i, i ∈ sched → k ≠ (c0 + i)%nat) →
         pending s' !! k = pending s !! k.
Proof.
  induction sched as [|i sched IH]; intros s cnt a Hnd Hp He Hlen.
  - exists s, a. cbn. rewrite Z.sub_0_r. done.
  - apply NoDup_cons in Hnd as [Hi Hnd].
    destruct (Hp i) as (val & Hpi); [by left|].
    destruct (entry_completes path id throws contents out env c0 s i val cnt a
                Hpi He) as (s1 & Hs1 & He1 & Hp1 & Ht1).
    cbn [fmap list_fmap completes]. rewrite Hs1.
    cbn [length] in Hlen.
    destruct (Z.leb_spec (cnt - 1) 0) as [|_]; [lia|].
    rewrite app_nil_r in Ht1.
    destruct (IH s1 (cnt - 1) (array_set a i (slot (out i))) Hnd)
      as (s' & a' & Hs' & Ht' & He' & Hp'); [ | exact He1 | lia | ].
    { intros k Hk. destruct (Hp k) as (valk & Hpk); [by right|].
      exists valk. rewrite Hp1; [done|].
      intros E. assert (k = i) as -> by lia. done. }
    exists s', a'. split; [exact Hs'|]. split; [by rewrite Ht'|].
    split.
    + rewrite He'. do 2 f_equal. cbn [length]. lia.
    + intros k Hk. rewrite Hp'.
      * apply Hp1. apply Hk. by left.
      * intros j Hj. apply Hk. by right.
Qed.

End ReaddirWaits.

(** X6: as long as the stat of some entry has not completed, [readdir]
    has not invoked its callback, whichever entries completed and in
    whichever order, and the stat calls of the other entries are still
    outstanding. *)
Theorem readdir_waits_for_every_entry (s : State) (path : string) (id : nat)
    (throws : list value → bool) (contents : list string)
    (out : nat → native_error + native_stats) (sched : list nat) :
  NoDup sched →
  (∀ i, i ∈ sched → (i < length contents)%nat) →
  (length sched < length contents)%nat →
  let c := next_call s in
  ∃ s',
    completes ((c, RReaddir (inr contents)) ::
               ((λ i, ((S c + i)%nat, RStat (out i))) <$> sched))
      (run (readdir path (KUser id throws)) s) = Some s' ∧
    trace s' = trace s ++ [EDriver c (ReqReaddir path)] ++
               readdir_requests path (S c) contents ∧
    callbacks_of id (trace s') = callbacks_of id (trace s) ∧
    ∀ i, (i < length contents)%nat → i ∉ sched →
         is_Some (pending s' !! (S c + i)%nat).
Proof.
  intros Hnd Hlt Hlen c.
  cut (∃ s',
    completes ((c, RReaddir (inr contents)) ::
               ((λ i, ((S c + i)%nat, RStat (out i))) <$> sched))
      (run (readdir path (KUser id throws)) s) = Some s' ∧
    trace s' = trace s ++ [EDriver c (ReqReaddir path)] ++
               readdir_requests path (S c) contents ∧
    ∀ i, (i < length contents)%nat → i ∉ sched →
         is_Some (pending s' !! (S c + i)%nat)).
  { intros (s' & Hs & Ht & Hp). exists s'. repeat split; try done.
    rewrite Ht, !callbacks_of_app, callbacks_of_readdir_requests. cbn.
    by rewrite app_nil_r. }
  subst c. cbn [completes].
  assert (length contents ≠ 0%nat) as HN by lia.
  destruct s as [cbk tmo pnd fh rfe rde ne pe nc tr]. unfold readdir. js_step.
  destruct (Z.eqb_spec (Z.of_nat (length contents)) 0) as [|_]; [lia|].
  js_norm.
  edestruct (forEach_run path id throws contents ne contents 0%nat)
    as (s2 & -> & Ht2 & He2 & Hp2 & _).
  js_norm. cbn [next_call trace readdir_envs] in *.
  destruct (schedule_waits path id throws contents out ne (S nc) sched s2
              (Z.of_nat (length contents)) [] Hnd)
    as (s' & a' & Hs' & Ht' & _ & Hp').
  - intros i Hi. destruct (lookup_lt_is_Some_2 contents i) as [val Hval];
      [by apply Hlt|].
    exists val. by rewrite (Hp2 i val Hval).
  - by rewrite He2, lookup_insert_eq.
  - lia.
  - exists s'. rewrite Hs'. split; [done|]. split.
    + rewrite Ht', Ht2. by rewrite <- !app_assoc.
    + intros i Hi Hnot.
      destruct (lookup_lt_is_Some_2 contents i) as [val Hval]; [done|].
      rewrite Hp'.
      * rewrite (Hp2 i val Hval). by eexists.
      * intros j Hj E. assert (i = j) as -> by lia. done.
Qed.

Lemma readdir_waits_for_every_entry_witness :
  ∃ s',
    completes [(0%nat, RReaddir (inr ["x"; "y"; "z"]));
               (3%nat, RStat (inl (mkNativeError "EIO")));
               (1%nat, RStat (inl (mkNativeError "ENoEntry")))]
      (run (readdir "/a" (KUser 1 (λ _, false))) initial) = Some s' ∧
    callbacks_of 1 (trace s') = [] ∧
    is_Some (pending s' !! 2%nat).
Proof.
  destruct (readdir_waits_for_every_entry initial "/a" 1 (λ _, false)
              ["x"; "y"; "z"]
              (λ i, match i with
                    | 0%nat => inl (mkNativeError "ENoEntry")
                    | 1%nat => inr (mkNativeStats true 5 2)
                    | _ => inl (mkNativeError "EIO")
                    end)
              [2; 0]%nat)
    as (s' & Hs & _ & Hc & Hp).
  - compute_done.
  - intros i Hi. apply elem_of_cons in Hi as [->|Hi]; [cbn; lia|].
    apply elem_of_cons in Hi as [->|Hi]; [cbn; lia|]. by apply elem_of_nil in Hi.
  - cbn. lia.
  - exists s'. split; [exact Hs|]. split; [exact Hc|].
    apply (Hp 1%nat); [cbn; lia | compute_done].
Defined.

(** ** Concurrent readFile calls *)

Lemma callbacks_of_other id id' throws args :
  id' ≠ id →
  callbacks_of id' ([ECallback id args] ++ uncaught id throws args) = [].
Proof.
  intros Hne. rewrite callbacks_of_app, callbacks_of_uncaught. cbn.
  by rewrite decide_False by done.
Qed.

Lemma callbacks_of_own id throws args :
  callbacks_of id ([ECallback id args] ++ uncaught id throws args) = [args].
Proof.
  rewrite callbacks_of_app, callbacks_of_uncaught. cbn.
  by rewrite decide_True by done.
Qed.

Section Concurrent.

Context (i : readFile_call).

Lemma read_completes ph before s rr :
  rf_read i ≠ rf_stat i →
  read_outstanding ph = true → in_phase i ph before s →
  ∃ s', complete (rf_read i) (RReadFile rr) s = Some s' ∧
    in_phase i (after_read ph rr) before s' ∧
    ∀ j phj bj, apart i j → in_phase j phj bj s → in_phase j phj bj s'.
Proof.
  intros Hcalls Hout (Henv & Hread & Hstat & Hcalled).
  destruct s as [cbk tmo pnd fh rfe rde ne pe nc tr].
  cbn [trace pending readFile_envs] in *.
  rewrite Hout in Hread.
  erewrite complete_Some; [|cbn; exact Hread | reflexivity].
  destruct rr as [e|d].
  - js_norm.
    set (args := [_mapError (Some e)]).
    eexists
      (mkState cbk tmo pnd fh rfe rde ne (delete (rf_read i) pe) nc
         (tr ++ [ECallback (rf_id i) args] ++ uncaught (rf_id i) (rf_throws i) args)).
    split.
    { unfold uncaught. destruct (rf_throws i args); js_norm;
        by rewrite <- ?app_assoc, ?app_nil_r. }
    split.
    + repeat split; cbn [trace pending readFile_envs].
      * intros env Hph. apply Henv. by destruct ph.
      * rewrite lookup_delete_eq. by destruct ph.
      * rewrite lookup_delete_ne by done. rewrite Hstat. by destruct ph.
      * rewrite callbacks_of_app, callbacks_of_own, Hcalled.
        destruct ph; try done; cbn; by rewrite ?app_nil_r.
    + intros j phj bj (Hn & Hid & H1 & H2 & H3 & H4) (Hje & Hjr & Hjs & Hjc).
      repeat split; cbn [trace pending readFile_envs] in *.
      * exact Hje.
      * by rewrite lookup_delete_ne.
      * by rewrite lookup_delete_ne.
      * by rewrite callbacks_of_app, callbacks_of_other, app_nil_r.
  - destruct ph as [| | rs |]; try done.
    + (* Issued *)
      js_norm. rewrite (Henv _ eq_refl). js_norm.
      eexists. split; [reflexivity|]. split.
      * repeat split; cbn [trace pending readFile_envs].
        -- intros env [= <-]. by rewrite lookup_insert_eq.
        -- by rewrite lookup_delete_eq.
        -- by rewrite lookup_delete_ne.
        -- exact Hcalled.
      * intros j phj bj (Hn & Hid & H1 & H2 & H3 & H4) (Hje & Hjr & Hjs & Hjc).
        repeat split; cbn [trace pending readFile_envs] in *.
        -- intros env Hph. rewrite lookup_insert_ne by done. by apply Hje.
        -- by rewrite lookup_delete_ne.
        -- by rewrite lookup_delete_ne.
        -- exact Hjc.
    + (* StatDone *)
      js_norm. rewrite (Henv _ eq_refl). js_norm.
      set (args := readFile_result (inr d) rs).
      eexists
        (mkState cbk tmo pnd fh rfe rde ne (delete (rf_read i) pe) nc
           (tr ++ [ECallback (rf_id i) args] ++
            uncaught (rf_id i) (rf_throws i) args)).
      split.
      { unfold uncaught, args. destruct rs; js_norm;
          rewrite ?truthy_mapError; destruct (rf_throws i _); js_norm;
          by rewrite <- ?app_assoc, ?app_nil_r. }
      split.
      * repeat split; cbn [trace pending readFile_envs].
        -- done.
        -- by rewrite lookup_delete_eq.
        -- by rewrite lookup_delete_ne.
        -- by rewrite callbacks_of_app, callbacks_of_own, Hcalled, app_nil_r.
      * intros j phj bj (Hn & Hid & H1 & H2 & H3 & H4) (Hje & Hjr & Hjs & Hjc).
        repeat split; cbn [trace pending readFile_envs] in *.
        -- exact Hje.
        -- by rewrite lookup_delete_ne.
        -- by rewrite lookup_delete_ne.
        -- by rewrite callbacks_of_app, callbacks_of_other, app_nil_r.
Qed.

Lemma stat_completes ph before s rs :
  rf_read i ≠ rf_stat i →
  stat_outstanding ph = true → in_phase i ph before s →
  ∃ s', complete (rf_stat i) (RStat rs) s = Some s' ∧
    in_phase i (after_stat ph rs) before s' ∧
    ∀ j phj bj, apart i j → in_phase j phj bj s → in_phase j phj bj s'.
Proof.
  intros Hcalls Hout (Henv & Hread & Hstat & Hcalled).
  destruct s as [cbk tmo pnd fh rfe rde ne pe nc tr].
  cbn [trace pending readFile_envs] in *.
  rewrite Hout in Hstat.
  erewrite complete_Some; [|cbn; exact Hstat | reflexivity].
  rewrite resume_D_stat. cbn [apply].
  assert (∃ e, phase_env ph = Some e ∧
            (done e = true → ∃ d, ph = ReadDone (inr d))) as (env & Hph & Hdone).
  { destruct ph as [|[e|d]| |]; try done; eexists; (split; [reflexivity|]);
      cbn; eauto; done. }
  js_norm. rewrite (Henv _ Hph). js_norm.
  destruct (done env) eqn:Hd.
  - destruct (Hdone eq_refl) as [d ->]. injection Hph as <-. clear Hdone Hd.
    set (args := readFile_result (inr d) rs).
    eexists
      (mkState cbk tmo pnd fh rfe rde ne (delete (rf_stat i) pe) nc
         (tr ++ [ECallback (rf_id i) args] ++
          uncaught (rf_id i) (rf_throws i) args)).
    split.
    { unfold uncaught, args. destruct rs; js_norm;
        rewrite ?truthy_mapError; destruct (rf_throws i _); js_norm;
        by rewrite <- ?app_assoc, ?app_nil_r. }
    split.
    + repeat split; cbn [trace pending readFile_envs].
      * done.
      * by rewrite lookup_delete_ne.
      * by rewrite lookup_delete_eq.
      * by rewrite callbacks_of_app, callbacks_of_own, Hcalled, app_nil_r.
    + intros j phj bj (Hn & Hid & H1 & H2 & H3 & H4) (Hje & Hjr & Hjs & Hjc).
      repeat split; cbn [trace pending readFile_envs] in *.
      * exact Hje.
      * by rewrite lookup_delete_ne.
      * by rewrite lookup_delete_ne.
      * by rewrite callbacks_of_app, callbacks_of_other, app_nil_r.
  - assert (ph = Issued ∨ ∃ e, ph = ReadDone (inl e)) as Hcase.
    { destruct ph as [|[e|d]| |]; try done; eauto.
      injection Hph as <-. done. }
    js_norm. eexists. split; [reflexivity|]. split.
    + destruct Hcase as [->|[e ->]]; injection Hph as <-;
        repeat split; cbn [trace pending readFile_envs after_stat phase_env];
        rewrite ?lookup_delete_eq, ?lookup_delete_ne by done; try done.
      intros ? [= <-]. by rewrite lookup_insert_eq.
    + intros j phj bj (Hn & Hid & H1 & H2 & H3 & H4) (Hje & Hjr & Hjs & Hjc).
      repeat split; cbn [trace pending readFile_envs] in *.
      * intros e' Hph'. rewrite lookup_insert_ne by done. by apply Hje.
      * by rewrite lookup_delete_ne.
      * by rewrite lookup_delete_ne.
      * exact Hjc.
Qed.

End Concurrent.

Lemma readFile_in_phase_issued s path o id throws :
  let i := mkCall (next_env s) (next_call s) (S (next_call s)) path
             (encoding_of o) id throws in
  let s1 := run (readFile path o (KUser id throws)) s in
  in_phase i Issued (callbacks_of id (trace s)) s1 ∧
  next_env s1 = S (next_env s) ∧ next_call s1 = S (S (next_call s)) ∧
  ∀ j phj bj,
    rf_env j ≠ next_env s → rf_read j ≠ next_call s →
    rf_read j ≠ S (next_call s) → rf_stat j ≠ next_call s →
    rf_stat j ≠ S (next_call s) →
    in_phase j phj bj s → in_phase j phj bj s1.
Proof.
  intros i s1. subst i s1. destruct s as [cbk tmo pnd fh rfe rde ne pe nc tr].
  unfold readFile. js_norm. split; [|split; [done|split; [done|]]].
  - repeat split; cbn [trace pending readFile_envs rf_env rf_read rf_stat
                       rf_path rf_encoding rf_id rf_throws phase_env
                       read_outstanding stat_outstanding phase_called].
    + intros e [= <-]. by rewrite lookup_insert_eq.
    + rewrite lookup_insert_ne by lia. by rewrite lookup_insert_eq.
    + by rewrite lookup_insert_eq.
    + rewrite !callbacks_of_app. cbn. by rewrite !app_nil_r.
  - intros j phj bj Hn H1 H2 H3 H4 (Hje & Hjr & Hjs & Hjc).
    repeat split; cbn [trace pending readFile_envs] in *.
    + intros e He. rewrite lookup_insert_ne by done. by apply Hje.
    + by rewrite !lookup_insert_ne by done.
    + by rewrite !lookup_insert_ne by done.
    + rewrite !callbacks_of_app. cbn. by rewrite !app_nil_r.
Qed.

Ltac rf_own lem i j Hi Hj Hij r :=
  lazymatch type of Hi with
  | in_phase _ ?ph ?b ?s =>
      let s' := fresh "s" in
      let Hs := fresh "Hs" in
      let Hi' := fresh "Hi" in
      let Hf := fresh "Hf" in
      destruct (lem i ph b s r ltac:(cbv; lia) eq_refl Hi)
        as (s' & Hs & Hi' & Hf);
      unfold i in Hs; cbn [rf_read rf_stat] in Hs; rewrite Hs;
      apply (Hf j _ _ Hij) in Hj; clear Hf Hs Hi
  end.

Ltac rf_turn i1 i2 :=
  cbn [completes];
  lazymatch goal with
  | Hi1 : in_phase i1 _ _ ?s, Hi2 : in_phase i2 _ _ ?s, H12 : apart i1 i2,
    H21 : apart i2 i1
    |- context [complete _ (RReadFile ?rr) ?s] =>
      first [ rf_own read_completes i1 i2 Hi1 Hi2 H12 rr
            | rf_own read_completes i2 i1 Hi2 Hi1 H21 rr ]
  | Hi1 : in_phase i1 _ _ ?s, Hi2 : in_phase i2 _ _ ?s, H12 : apart i1 i2,
    H21 : apart i2 i1
    |- context [complete _ (RStat ?rs) ?s] =>
      first [ rf_own stat_completes i1 i2 Hi1 Hi2 H12 rs
            | rf_own stat_completes i2 i1 Hi2 Hi1 H21 rs ]
  end.

(** X8: two [readFile] calls in flight at the same time do not disturb
    one another: in whichever of the 24 orders their four driver calls
    complete, each caller's callback is invoked exactly once, with the
    result of its own two calls. *)
Theorem concurrent_readFiles_independent (s : State) (p1 p2 : string)
    (o1 o2 : options) (id1 id2 : nat) (t1 t2 : list value → bool)
    (rr1 rr2 : native_error + string) (rs1 rs2 : native_error + native_stats)
    (sched : list (nat * response)) :
  id1 ≠ id2 →
  let c := next_call s in
  let s2 := run (readFile p2 o2 (KUser id2 t2))
              (run (readFile p1 o1 (KUser id1 t1)) s) in
  sched ≡ₚ [(c, RReadFile rr1); (S c, RStat rs1);
            (S (S c), RReadFile rr2); (S (S (S c)), RStat rs2)] →
  ∃ s',
    completes sched s2 = Some s' ∧
    callbacks_of id1 (trace s') =
      callbacks_of id1 (trace s) ++ [readFile_result rr1 rs1] ∧
    callbacks_of id2 (trace s') =
      callbacks_of id2 (trace s) ++ [readFile_result rr2 rs2].
Proof.
  intros Hid c s2 Hperm.
  set (i1 := mkCall (next_env s) c (S c) p1 (encoding_of o1) id1 t1).
  set (i2 := mkCall (S (next_env s)) (S (S c)) (S (S (S c))) p2
               (encoding_of o2) id2 t2).
  assert (apart i1 i2) as H12 by (repeat split; cbn; (done || lia)).
  assert (apart i2 i1) as H21 by (repeat split; cbn; (done || lia)).
  destruct (readFile_in_phase_issued s p1 o1 id1 t1) as (Hi1 & Hne1 & Hnc1 & _).
  fold c i1 in Hi1.
  destruct (readFile_in_phase_issued (run (readFile p1 o1 (KUser id1 t1)) s)
              p2 o2 id2 t2) as (Hi2 & _ & _ & Hframe).
  rewrite Hne1, Hnc1 in Hi2, Hframe. fold c i2 s2 in Hi2.
  apply (Hframe i1) in Hi1; try (cbn; lia). fold s2 in Hi1. clear Hframe.
  assert (callbacks_of id2 (trace (run (readFile p1 o1 (KUser id1 t1)) s)) =
          callbacks_of id2 (trace s)) as Hb2.
  { rewrite readFile_issued, callbacks_of_app. cbn. by rewrite app_nil_r. }
  rewrite Hb2 in Hi2. clear Hb2 Hne1 Hnc1.
  apply symmetry, permutations_Permutation in Hperm.
  cbn in Hperm. generalize dependent s2. intros s2 Hi1 Hi2.
  repeat (apply elem_of_cons in Hperm as [->|Hperm]);
    [..|by apply elem_of_nil in Hperm];
    do 4 rf_turn i1 i2; cbn [completes];
    lazymatch goal with
    | H1 : in_phase i1 _ _ _, H2 : in_phase i2 _ _ _ |- _ =>
        destruct H1 as (_ & _ & _ & Hc1), H2 as (_ & _ & _ & Hc2)
    end;
    (eexists; split; [reflexivity | split; [exact Hc1 | exact Hc2]]).
Qed.

Lemma concurrent_readFiles_independent_witness :
  ∃ s',
    completes [(2%nat, RReadFile (inr "data"));
               (1%nat, RStat (inr (mkNativeStats true 5 2)));
               (0%nat, RReadFile (inl (mkNativeError "ENoEntry")));
               (3%nat, RStat (inr (mkNativeStats true 6 4)))]
      (run (readFile "/b" (mkOptions None) (KUser 2 (λ _, false)))
         (run (readFile "/a" (mkOptions None) (KUser 1 (λ _, false))) initial))
      = Some s' ∧
    callbacks_of 1 (trace s') = [[VError NOT_FOUND]] ∧
    callbacks_of 2 (trace s') =
      [[VNull; VString "data"; VStats (mkStats true 6 4)]].
Proof.
  apply (concurrent_readFiles_independent initial "/a" "/b" (mkOptions None)
           (mkOptions None) 1 2 (λ _, false) (λ _, false)
           (inl (mkNativeError "ENoEntry")) (inr "data")
           (inr (mkNativeStats true 5 2)) (inr (mkNativeStats true 6 4)));
    [done|].
  symmetry. apply permutations_Permutation. cbn. by repeat constructor.
Defined.
